(** * Directed-graph toolkit of [lib/universal/graph.ts]

    A shallow embedding of the depth-first algorithms of the graph library
    (cycle test, cycle records, topological sort, dependency partition) and
    of the PlantUML exporter, with the properties its specification states.

    Conventions of the embedding:
    - [Node] and [NodeID] are the type parameters of the TypeScript
      generics; a [Set<NodeID>] is a [gset NodeID], a [Map<NodeID, number>]
      a [gmap NodeID nat], an [Array<T>] a [list T] whose [push] appends at
      the end;
    - a comparator result is only ever inspected through [=== 0], [< 0] and
      [> 0], it is an integer here;
    - the recursive closure [dagDFS] takes a recursion budget (its call
      depth); [None] means the budget ran out.  Every entry point supplies a
      budget that is proved sufficient. *)

From stdpp Require Import gmap list sets relations strings.
From Stdlib Require Import ZArith Lia.

(** ** Graph model *)

Record Edge (Node : Type) : Type := mkEdge { from : Node; to : Node }.
Arguments mkEdge {Node} _ _.
Arguments from {Node} _.
Arguments to {Node} _.

Record Graph (Node : Type) : Type :=
  mkGraph { nodes : list Node; edges : list (Edge Node) }.
Arguments mkGraph {Node} _ _.
Arguments nodes {Node} _.
Arguments edges {Node} _.

Definition NodeIdentitySupplier (Node NodeID : Type) : Type := Node -> NodeID.
Definition NodeComparator (Node : Type) : Type := Node -> Node -> Z.

(** ** Paths and cycles

    [nodeEdge] is the edge relation on nodes, [idEdge] the one the
    traversals actually follow: on the [NodeID]s of the endpoints. *)

Section Paths.
Context {Node NodeID : Type}.
Variable graph : Graph Node.
Variable identity : NodeIdentitySupplier Node NodeID.

Definition nodeEdge (a b : Node) : Prop :=
  ∃ e, e ∈ edges graph ∧ from e = a ∧ to e = b.

Definition idEdge (x y : NodeID) : Prop :=
  ∃ e, e ∈ edges graph ∧ identity (from e) = x ∧ identity (to e) = y.

Definition hasCycle : Prop := ∃ n, tc nodeEdge n n.
Definition acyclic : Prop := ∀ n, ¬ tc nodeEdge n n.

Definition endpointsInNodes : Prop :=
  ∀ e, e ∈ edges graph → from e ∈ nodes graph ∧ to e ∈ nodes graph.

(** The identities a nested [dagDFS] call can be entered on. *)
Definition targetIds `{Countable NodeID} : gset NodeID :=
  list_to_set (map (fun e => identity (to e)) (edges graph)).

Definition idClosed `{Countable NodeID} (B : gset NodeID) : Prop :=
  ∀ u w, u ∈ B → idEdge u w → w ∈ B.

Definition idNoCycle `{Countable NodeID} (B : gset NodeID) : Prop :=
  ∀ u, u ∈ B → ¬ tc idEdge u u.
End Paths.

(** [a] occurs at a position strictly before one of [b]. *)
Definition appearsBefore {A : Type} (a b : A) (l : list A) : Prop :=
  ∃ l1 l2 l3, l = l1 ++ a :: l2 ++ b :: l3.

(** ** Cycle test: [dagIsCyclicalDFS] *)

Module IsCyclical.
Section IsCyclical.
Context {Node NodeID : Type} `{Countable NodeID}.
Variable graph : Graph Node.
Variable identity : NodeIdentitySupplier Node NodeID.
Variable compare : NodeComparator Node.

Record State : Type :=
  mkState { visited : gset NodeID; recursionStack : gset NodeID }.

(** The [for (const edge of graph.edges)] loop of [dagDFS], from the
    edge list still to scan; [rec] is the recursive call.  The end of the
    list is the code after the loop. *)
Fixpoint edgeLoop (rec : Node -> State -> option (bool * State))
    (node : Node) (es : list (Edge Node)) (st : State)
    : option (bool * State) :=
  match es with
  | [] =>
      Some (false,
            mkState (visited st) (recursionStack st ∖ {[identity node]}))
  | edge :: rest =>
      if decide (compare (from edge) node = 0)%Z then
        let neighbour := to edge in
        if decide (identity neighbour ∈ visited st) then
          if decide (identity neighbour ∈ recursionStack st)
          then Some (true, st)
          else edgeLoop rec node rest st
        else
          match rec neighbour st with
          | None => None
          | Some (true, st') => Some (true, st')
          | Some (false, st') =>
              if decide (identity neighbour ∈ recursionStack st')
              then Some (true, st')
              else edgeLoop rec node rest st'
          end
      else edgeLoop rec node rest st
  end.

Fixpoint dagDFS (fuel : nat) (node : Node) (st : State)
    : option (bool * State) :=
  match fuel with
  | O => None
  | S fuel' =>
      let nodeId := identity node in
      edgeLoop (dagDFS fuel') node (edges graph)
        (mkState ({[nodeId]} ∪ visited st) ({[nodeId]} ∪ recursionStack st))
  end.

(** The [for (const node of graph.nodes)] loop: every node is searched,
    visited or not. *)
Fixpoint rootLoop (fuel : nat) (ns : list Node) (st : State) : option bool :=
  match ns with
  | [] => Some false
  | node :: rest =>
      match dagDFS fuel node st with
      | None => None
      | Some (true, _) => Some true
      | Some (false, st') => rootLoop fuel rest st'
      end
  end.

Definition dagIsCyclicalDFS : option bool :=
  rootLoop (S (length (edges graph))) (nodes graph) (mkState ∅ ∅).

(** The algorithm as the specification words it, "depth-first search
    from every node not yet visited": the same search, with an outer loop
    that skips a start node already in [visited]. *)
Fixpoint rootLoopUnvisited (fuel : nat) (ns : list Node) (st : State)
    : option bool :=
  match ns with
  | [] => Some false
  | node :: rest =>
      if decide (identity node ∈ visited st) then
        rootLoopUnvisited fuel rest st
      else
        match dagDFS fuel node st with
        | None => None
        | Some (true, _) => Some true
        | Some (false, st') => rootLoopUnvisited fuel rest st'
        end
  end.

Definition isCyclicalFromUnvisited : option bool :=
  rootLoopUnvisited (S (length (edges graph))) (nodes graph) (mkState ∅ ∅).

End IsCyclical.
End IsCyclical.

(** ** Cycle records: [dagCyclesDFS] *)

Record Cycle (Node : Type) : Type :=
  mkCycle { cycleNodes : list Node; cycleEdges : list (Edge Node) }.
Arguments mkCycle {Node} _ _.
Arguments cycleNodes {Node} _.
Arguments cycleEdges {Node} _.

Module Cycles.
Section Cycles.
Context {Node NodeID : Type} `{Countable NodeID}.
Variable graph : Graph Node.
Variable identity : NodeIdentitySupplier Node NodeID.
Variable compare : NodeComparator Node.

(** [live] holds the two arrays [cycleNodes] and [cycleEdges] of the
    root being searched. *)
Record State : Type :=
  mkState { visited : gset NodeID; recursionStack : gset NodeID;
            live : Cycle Node }.

Definition pushNode (node : Node) (st : State) : State :=
  mkState (visited st) (recursionStack st)
    (mkCycle (cycleNodes (live st) ++ [node]) (cycleEdges (live st))).
Definition popNode (st : State) : State :=
  mkState (visited st) (recursionStack st)
    (mkCycle (removelast (cycleNodes (live st))) (cycleEdges (live st))).
Definition pushEdge (edge : Edge Node) (st : State) : State :=
  mkState (visited st) (recursionStack st)
    (mkCycle (cycleNodes (live st)) (cycleEdges (live st) ++ [edge])).
Definition popEdge (st : State) : State :=
  mkState (visited st) (recursionStack st)
    (mkCycle (cycleNodes (live st)) (removelast (cycleEdges (live st)))).

(** The body of the edge loop for an edge leaving [node]: push the edge,
    explore the neighbour, and pop the edge unless a cycle is signalled
    ([true]: the function returns at once). *)
Definition exploreEdge (rec : Node -> State -> option (bool * State))
    (edge : Edge Node) (st : State) : option (bool * State) :=
  let neighbour := to edge in
  let st1 := pushEdge edge st in
  if decide (identity neighbour ∈ visited st1) then
    if decide (identity neighbour ∈ recursionStack st1)
    then Some (true, st1)
    else Some (false, popEdge st1)
  else
    match rec neighbour st1 with
    | None => None
    | Some (true, st2) => Some (true, st2)
    | Some (false, st2) => Some (false, popEdge st2)
    end.

Fixpoint edgeLoop (rec : Node -> State -> option (bool * State))
    (node : Node) (es : list (Edge Node)) (st : State)
    : option (bool * State) :=
  match es with
  | [] =>
      Some (false,
            popNode (mkState (visited st)
                       (recursionStack st ∖ {[identity node]}) (live st)))
  | edge :: rest =>
      if decide (compare (from edge) node = 0)%Z then
        match exploreEdge rec edge st with
        | None => None
        | Some (true, st') => Some (true, st')
        | Some (false, st') => edgeLoop rec node rest st'
        end
      else edgeLoop rec node rest st
  end.

Fixpoint dagDFS (fuel : nat) (node : Node) (st : State)
    : option (bool * State) :=
  match fuel with
  | O => None
  | S fuel' =>
      let nodeId := identity node in
      edgeLoop (dagDFS fuel') node (edges graph)
        (pushNode node
           (mkState ({[nodeId]} ∪ visited st)
              ({[nodeId]} ∪ recursionStack st) (live st)))
  end.

(** The outer loop; the state keeps [visited] and [recursionStack]
    across roots, the two arrays are fresh for each root. *)
Fixpoint rootLoop (fuel : nat) (ns : list Node) (st : State)
    (cycleList : list (Cycle Node)) : option (list (Cycle Node)) :=
  match ns with
  | [] => Some cycleList
  | node :: rest =>
      if decide (identity node ∈ visited st) then
        rootLoop fuel rest st cycleList
      else
        match dagDFS fuel node
                (mkState (visited st) (recursionStack st) (mkCycle [] []))
        with
        | None => None
        | Some (true, st') => rootLoop fuel rest st' (cycleList ++ [live st'])
        | Some (false, st') => rootLoop fuel rest st' cycleList
        end
  end.

Definition dagCyclesDFS : option (list (Cycle Node)) :=
  rootLoop (S (length (edges graph))) (nodes graph)
    (mkState ∅ ∅ (mkCycle [] [])) [].

End Cycles.
End Cycles.

(** ** Topological sort: [dagTopologicalSortDFS] *)

Module TopologicalSort.
Section TopologicalSort.
Context {Node NodeID : Type} `{Countable NodeID}.
Variable graph : Graph Node.
Variable identity : NodeIdentitySupplier Node NodeID.
Variable compare : NodeComparator Node.

Record State : Type :=
  mkState { visited : gset NodeID; stack : list Node }.

Fixpoint edgeLoop (rec : Node -> State -> option State)
    (node : Node) (es : list (Edge Node)) (st : State) : option State :=
  match es with
  | [] => Some (mkState (visited st) (stack st ++ [node]))
  | edge :: rest =>
      if decide (compare (from edge) node = 0)%Z then
        let neighbour := to edge in
        if decide (identity neighbour ∈ visited st) then
          edgeLoop rec node rest st
        else
          match rec neighbour st with
          | None => None
          | Some st' => edgeLoop rec node rest st'
          end
      else edgeLoop rec node rest st
  end.

Fixpoint dagDFS (fuel : nat) (node : Node) (st : State) : option State :=
  match fuel with
  | O => None
  | S fuel' =>
      edgeLoop (dagDFS fuel') node (edges graph)
        (mkState ({[identity node]} ∪ visited st) (stack st))
  end.

Fixpoint rootLoop (fuel : nat) (ns : list Node) (st : State)
    : option State :=
  match ns with
  | [] => Some st
  | node :: rest =>
      if decide (identity node ∈ visited st) then rootLoop fuel rest st
      else
        match dagDFS fuel node st with
        | None => None
        | Some st' => rootLoop fuel rest st'
        end
  end.

Definition dagTopologicalSortDFS : option (list Node) :=
  match rootLoop (S (length (edges graph))) (nodes graph) (mkState ∅ [])
  with
  | None => None
  | Some st => Some (rev (stack st))
  end.

End TopologicalSort.
End TopologicalSort.

(** ** Dependencies and dependents: [dagDependencies] *)

Record Dependencies (Node : Type) : Type :=
  mkDependencies { dependencies : list Node; dependents : list Node }.
Arguments mkDependencies {Node} _ _.
Arguments dependencies {Node} _.
Arguments dependents {Node} _.

Module Deps.
Section Deps.
Context {Node NodeID : Type} `{Countable NodeID}.
Variable graph : Graph Node.
Variable identity : NodeIdentitySupplier Node NodeID.
Variable compare : NodeComparator Node.
(** The supplier is a caller's function: [None] is a supplier that does
    not return. *)
Variable topologicalSortSupplier :
  Graph Node -> NodeIdentitySupplier Node NodeID -> NodeComparator Node ->
  option (list Node).

Record State : Type :=
  mkState { visited : gset NodeID; result : Dependencies Node }.

Definition pushDependency (node : Node) (st : State) : State :=
  mkState (visited st)
    (mkDependencies (dependencies (result st) ++ [node])
       (dependents (result st))).
Definition pushDependent (node : Node) (st : State) : State :=
  mkState (visited st)
    (mkDependencies (dependencies (result st))
       (dependents (result st) ++ [node])).
Definition visit (nodeId : NodeID) (st : State) : State :=
  mkState ({[nodeId]} ∪ visited st) (result st).

(** [for (let i = 0; i < topologicalSort.length; i++)], from index [i]
    with [rest] the elements from [i] on. *)
Fixpoint indexLoop (rest : list Node) (i : nat)
    (nodeIndex : gmap NodeID nat) : gmap NodeID nat :=
  match rest with
  | [] => nodeIndex
  | node :: rest' =>
      indexLoop rest' (S i) (<[identity node := i]> nodeIndex)
  end.

(** [for (let i = targetIndex - 1; i >= 0; i--)]: [k] is [i + 1].  An
    index outside the array reads [undefined], which is no [Node]: [None]. *)
Fixpoint beforeLoop (topologicalSort : list Node) (k : nat) (st : State)
    : option State :=
  match k with
  | O => Some st
  | S i =>
      match topologicalSort !! i with
      | None => None
      | Some node =>
          beforeLoop topologicalSort i
            (pushDependency node (visit (identity node) st))
      end
  end.

(** [for (let i = targetIndex + 1; i < topologicalSort.length; i++)],
    with [count] iterations left. *)
Fixpoint afterLoop (topologicalSort : list Node) (count i : nat)
    (st : State) : option State :=
  match count with
  | O => Some st
  | S count' =>
      match topologicalSort !! i with
      | None => None
      | Some node =>
          afterLoop topologicalSort count' (S i)
            (pushDependent node (visit (identity node) st))
      end
  end.

(** [for (const node of graph.nodes)]: the nodes not yet visited. *)
Fixpoint remainingLoop (targetNode : Node) (ns : list Node) (st : State)
    : State :=
  match ns with
  | [] => st
  | node :: rest =>
      let nodeId := identity node in
      if decide (nodeId ∈ visited st) then remainingLoop targetNode rest st
      else if decide (compare node targetNode < 0)%Z then
        remainingLoop targetNode rest (pushDependency node st)
      else if decide (compare node targetNode > 0)%Z then
        remainingLoop targetNode rest (pushDependent node st)
      else remainingLoop targetNode rest st
  end.

Definition dagDependencies (targetNode : Node)
    : option (Dependencies Node) :=
  match topologicalSortSupplier graph identity compare with
  | None => None
  | Some topologicalSort =>
      let nodeIndex := indexLoop topologicalSort 0%nat ∅ in
      let st0 := mkState ∅ (mkDependencies [] []) in
      let traversed :=
        match nodeIndex !! identity targetNode with
        | Some targetIndex =>
            match beforeLoop topologicalSort targetIndex st0 with
            | None => None
            | Some st1 =>
                afterLoop topologicalSort
                  (length topologicalSort - (targetIndex + 1))
                  (targetIndex + 1) st1
            end
        | None => Some st0
        end in
      match traversed with
      | None => None
      | Some st => Some (result (remainingLoop targetNode (nodes graph) st))
      end
  end.

End Deps.
End Deps.

(** The facade [dagDepthFirst]: the four operations bound to one
    [identity] and one [compare]. *)
Section Facade.
Context {Node NodeID : Type} `{Countable NodeID}.
Variable identity : NodeIdentitySupplier Node NodeID.
Variable compare : NodeComparator Node.

Definition isCyclical (graph : Graph Node) : option bool :=
  IsCyclical.dagIsCyclicalDFS graph identity compare.
Definition cycles (graph : Graph Node) : option (list (Cycle Node)) :=
  Cycles.dagCyclesDFS graph identity compare.
Definition deps (graph : Graph Node) (node : Node)
    : option (Dependencies Node) :=
  Deps.dagDependencies graph identity compare
    (fun g i c => TopologicalSort.dagTopologicalSortDFS g i c) node.
Definition topologicalSort (graph : Graph Node) : option (list Node) :=
  TopologicalSort.dagTopologicalSortDFS graph identity compare.
End Facade.

(** ** Diagram exporter: [graphPlantUmlDiagram] *)

Module PumlNode.
Record t : Type := mk { text : string; features : option string }.
End PumlNode.

Module PumlEdge.
Record t : Type :=
  mk { fromText : string; toText : string; features : option string }.
End PumlEdge.

Definition newline : string := String (Ascii.ascii_of_nat 10) EmptyString.

(** [features ? ` ${features}` : ""]: an absent or empty [features] is
    falsy. *)
Definition featuresSuffix (features : option string) : string :=
  match features with
  | None => ""
  | Some EmptyString => ""
  | Some f => " " +:+ f
  end.

Section PlantUml.
Context {Node : Type}.
Variable graph : Graph Node.
Variable nodeOption : Node -> PumlNode.t.
Variable edgeOption : Edge Node -> PumlEdge.t.

Definition nodeLine (node : Node) : string :=
  let l := nodeOption node in
  PumlNode.text l +:+ featuresSuffix (PumlNode.features l).

Definition edgeLine (edge : Edge Node) : string :=
  let l := edgeOption edge in
  PumlEdge.fromText l +:+ " --> " +:+ PumlEdge.toText l
  +:+ featuresSuffix (PumlEdge.features l).

Fixpoint nodeLinesLoop (ns : list Node) (nodeLines : list string)
    : list string :=
  match ns with
  | [] => nodeLines
  | node :: rest => nodeLinesLoop rest (nodeLines ++ [nodeLine node])
  end.

Fixpoint edgeLinesLoop (es : list (Edge Node)) (edgeLines : list string)
    : list string :=
  match es with
  | [] => edgeLines
  | edge :: rest => edgeLinesLoop rest (edgeLines ++ [edgeLine edge])
  end.

Definition graphPlantUmlDiagram : string :=
  let nodeLines := nodeLinesLoop (nodes graph) [] in
  let edgeLines := edgeLinesLoop (edges graph) [] in
  "@startuml" +:+ newline +:+ String.concat newline nodeLines +:+ newline
  +:+ String.concat newline edgeLines +:+ newline +:+ "@enduml".
End PlantUml.

(** ** Invariants of the traversals

    The predicates the proofs below maintain along the recursion; [rec]
    stands for the recursive call at a smaller budget. *)

Section IsCyclicalInvariants.
Context {Node NodeID : Type} `{Countable NodeID}.
Variable graph : Graph Node.
Variable identity : NodeIdentitySupplier Node NodeID.
Import IsCyclical.

Local Abbreviation St := (@State NodeID _ _).
Local Abbreviation U := (targetIds graph identity).
Local Abbreviation idE := (idEdge graph identity).

(** A call on an unvisited target returns when at most [n] targets are
    unvisited, and only adds to [visited]. *)
Definition returnsWithin (rec : Node → St → option (bool * St))
    (n : nat) : Prop :=
  ∀ (nb : Node) (st : St),
    identity nb ∈ U → identity nb ∉ visited st →
    size (U ∖ visited st) ≤ n →
    ∃ b st', rec nb st = Some (b, st') ∧ visited st ⊆ visited st'.

(** The finished identities ([visited] but no longer on the recursion
    stack) are closed under the edges and lie on no cycle. *)
Definition Inv (st : St) : Prop :=
  recursionStack st ⊆ visited st ∧
  idClosed graph identity (visited st ∖ recursionStack st) ∧
  idNoCycle graph identity (visited st ∖ recursionStack st).

(** From such a state, with every stack entry reaching the node, a search
    signals only a real cycle, and otherwise finishes its node. *)
Definition dfsSpec (rec : Node → St → option (bool * St)) : Prop :=
  ∀ (nb : Node) (st : St) b st',
    Inv st → identity nb ∉ visited st →
    (∀ s, s ∈ recursionStack st → rtc idE s (identity nb)) →
    rec nb st = Some (b, st') →
    if (b : bool) then ∃ x, tc idE x x
    else recursionStack st' = recursionStack st ∧
         visited st ⊆ visited st' ∧ identity nb ∈ visited st' ∧ Inv st'.

(** A search that returns [false] leaves on the recursion stack what was
    there and visited. *)
Definition keepsStack (rec : Node → St → option (bool * St)) : Prop :=
  ∀ (nb : Node) (st st' : St),
    identity nb ∉ visited st → rec nb st = Some (false, st') →
    visited st ⊆ visited st' ∧
    ∀ x, x ∈ visited st → x ∈ recursionStack st → x ∈ recursionStack st'.

End IsCyclicalInvariants.

Section CyclesInvariants.
Context {Node NodeID : Type} `{Countable NodeID}.
Variable graph : Graph Node.
Variable identity : NodeIdentitySupplier Node NodeID.
Import Cycles.

Local Abbreviation St := (@State Node NodeID _ _).
Local Abbreviation U := (targetIds graph identity).

(** A search marks its node and unmarks nothing. *)
Definition marks (rec : Node → St → option (bool * St)) : Prop :=
  ∀ (nb : Node) (st : St) b st',
    rec nb st = Some (b, st') → {[identity nb]} ∪ visited st ⊆ visited st'.

(** A search that signals a cycle leaves the arrays extended, by the node
    it was entered on and what follows; one that does not restores them. *)
Definition extends (rec : Node → St → option (bool * St)) : Prop :=
  ∀ (nb : Node) (st : St) b st',
    rec nb st = Some (b, st') →
    if (b : bool) then
      ∃ ns es, cycleNodes (live st') = cycleNodes (live st) ++ nb :: ns ∧
               cycleEdges (live st') = cycleEdges (live st) ++ es
    else live st' = live st.

Definition cyclesReturnWithin (rec : Node → St → option (bool * St))
    (n : nat) : Prop :=
  ∀ (nb : Node) (st : St),
    identity nb ∈ U → identity nb ∉ visited st →
    size (U ∖ visited st) ≤ n → ∃ b st', rec nb st = Some (b, st').

(** [record] was produced by the search from [root]. *)
Definition headedBy (root : Node) (record : Cycle Node) : Prop :=
  ∃ ns, cycleNodes record = root :: ns.

Definition cyclesKeepStack (rec : Node → St → option (bool * St)) : Prop :=
  ∀ (nb : Node) (st st' : St),
    identity nb ∉ visited st → rec nb st = Some (false, st') →
    ∀ x, x ∈ visited st → x ∈ recursionStack st → x ∈ recursionStack st'.

(** A search that visits [n] signals a cycle with [n] on the node array. *)
Definition entersSpec (n : Node)
    (rec : Node → St → option (bool * St)) : Prop :=
  ∀ (nb : Node) (st : St) b st',
    identity n ∉ visited st → rec nb st = Some (b, st') →
    identity n ∈ visited st' → b = true ∧ n ∈ cycleNodes (live st').

End CyclesInvariants.

Section TopologicalSortInvariants.
Context {Node NodeID : Type} `{Countable NodeID}.
Variable graph : Graph Node.
Variable identity : NodeIdentitySupplier Node NodeID.
Import TopologicalSort.

Local Abbreviation St := (@State Node NodeID _ _).
Local Abbreviation U := (targetIds graph identity).
Local Abbreviation idE := (idEdge graph identity).
Local Abbreviation ids := (fmap (M:=list) identity).

(** A search entered on an unvisited node pushes the nodes it marks, once
    each, and its own node last. *)
Definition pushes (rec : Node → St → option St) : Prop :=
  ∀ (nb : Node) (st st' : St),
    identity nb ∉ visited st → rec nb st = Some st' →
    ∃ new,
      stack st' = stack st ++ new ++ [nb] ∧
      NoDup (ids (new ++ [nb])) ∧
      (∀ x, x ∈ visited st' ↔ x ∈ visited st ∨ x ∈ ids (new ++ [nb])) ∧
      (∀ x, x ∈ ids (new ++ [nb]) → x ∉ visited st) ∧
      (∀ m, m ∈ new → ∃ e, e ∈ edges graph ∧ m = to e).

Definition topoReturnWithin (rec : Node → St → option St) (n : nat) : Prop :=
  ∀ (nb : Node) (st : St),
    identity nb ∈ U → identity nb ∉ visited st →
    size (U ∖ visited st) ≤ n → ∃ st', rec nb st = Some st'.

(** Every edge that leaves a listed node ends at a node listed after it. *)
Fixpoint topoOrdered (out : list Node) : Prop :=
  match out with
  | [] => True
  | u :: rest =>
      (∀ e, e ∈ edges graph → identity (from e) = identity u →
            identity (to e) ∈ ids rest) ∧
      topoOrdered rest
  end.

(** [G] is the set of identities of the searches in progress: the code
    keeps no such set, the proof does. *)
Definition ordersSpec (rec : Node → St → option St) : Prop :=
  ∀ (nb : Node) (st st' : St) (G : gset NodeID),
    identity nb ∉ visited st →
    (∀ x, x ∈ visited st → x ∈ G ∨ x ∈ ids (stack st)) →
    (∀ g, g ∈ G → rtc idE g (identity nb)) →
    topoOrdered (rev (stack st)) →
    rec nb st = Some st' →
    (∃ new, stack st' = stack st ++ new ++ [nb]) ∧
    (∀ x, x ∈ visited st' → x ∈ G ∨ x ∈ ids (stack st')) ∧
    topoOrdered (rev (stack st')).

End TopologicalSortInvariants.

(** ** Walks, and the cycle test inside the cycle records *)

Section CycleWalks.
Context {Node NodeID : Type} `{Countable NodeID}.
Variable graph : Graph Node.
Variable identity : NodeIdentitySupplier Node NodeID.
Variable compare : NodeComparator Node.

Local Abbreviation StC := (@Cycles.State Node NodeID _ _).
Local Abbreviation StI := (@IsCyclical.State NodeID _ _).

(** [es] walks along [ns]: the two have the same length, each edge leaves,
    by the comparator, the node at its position, and arrives at the next
    node; the last edge leaves the last node. *)
Fixpoint linked (ns : list Node) (es : list (Edge Node)) : Prop :=
  match ns, es with
  | n :: ns', e :: es' =>
      compare (from e) n = 0%Z ∧
      match ns' with
      | [] => es' = []
      | m :: _ => to e = m ∧ linked ns' es'
      end
  | _, _ => False
  end.

(** The last edge of the record ends at the NodeID of one of its nodes. *)
Definition closes (record : Cycle Node) : Prop :=
  ∃ es e, cycleEdges record = es ++ [e] ∧
          identity (to e) ∈ identity <$> cycleNodes record.

(** The state of [dagCyclesDFS] without its two arrays is a state of
    [dagIsCyclicalDFS]. *)
Definition forgetLive (st : StC) : StI :=
  IsCyclical.mkState (Cycles.visited st) (Cycles.recursionStack st).

Definition simulates (recC : Node → StC → option (bool * StC))
    (recI : Node → StI → option (bool * StI)) : Prop :=
  ∀ nb st b st',
    recC nb st = Some (b, st') →
    recI nb (forgetLive st) = Some (b, forgetLive st').

(** A search that returns [false] has taken its node off the stack. *)
Definition unstacks (recI : Node → StI → option (bool * StI)) : Prop :=
  ∀ nb (s s' : StI),
    recI nb s = Some (false, s') →
    identity nb ∉ IsCyclical.recursionStack s'.

(** The recursion stack is the set of NodeIDs of the node array. *)
Definition tracks (st : StC) : Prop :=
  Cycles.recursionStack st ⊆ Cycles.visited st ∧
  ∀ x, x ∈ Cycles.recursionStack st
       ↔ x ∈ identity <$> cycleNodes (Cycles.live st).

(** What a search that signals a cycle has added to the two arrays walks
    from its node along edges of the graph. *)
Definition walks (rec : Node → StC → option (bool * StC)) : Prop :=
  ∀ nb (st st' : StC),
    rec nb st = Some (true, st') →
    ∃ ns es,
      cycleNodes (Cycles.live st') = cycleNodes (Cycles.live st) ++ nb :: ns ∧
      cycleEdges (Cycles.live st') = cycleEdges (Cycles.live st) ++ es ∧
      linked (nb :: ns) es ∧ Forall (λ e, e ∈ edges graph) es.

(** From a state whose stack is that of its node array, a search that
    signals a cycle leaves arrays that close, and one that does not leaves
    the stack as it was. *)
Definition closesSpec (rec : Node → StC → option (bool * StC)) : Prop :=
  ∀ nb (st : StC) b st',
    tracks st → identity nb ∉ Cycles.visited st →
    rec nb st = Some (b, st') →
    if (b : bool) then closes (Cycles.live st')
    else Cycles.recursionStack st' = Cycles.recursionStack st.

End CycleWalks.

(** ** The searches of the outer loop of [dagCyclesDFS] *)

(** One search of the outer loop: the root it started from, the state of
    the outer loop before it, whether it signalled a cycle, and the state
    it left. *)
Record Run (Node NodeID : Type) `{Countable NodeID} : Type :=
  mkRun { runRoot : Node;
          runBefore : @Cycles.State Node NodeID _ _;
          runSignalled : bool;
          runAfter : @Cycles.State Node NodeID _ _ }.
Arguments mkRun {Node NodeID _ _} _ _ _ _.
Arguments runRoot {Node NodeID _ _} _.
Arguments runBefore {Node NodeID _ _} _.
Arguments runSignalled {Node NodeID _ _} _.
Arguments runAfter {Node NodeID _ _} _.

Section CycleRuns.
Context {Node NodeID : Type} `{Countable NodeID}.
Variable graph : Graph Node.
Variable identity : NodeIdentitySupplier Node NodeID.
Variable compare : NodeComparator Node.

Local Abbreviation StC := (@Cycles.State Node NodeID _ _).
Local Abbreviation RunC := (@Run Node NodeID _ _).

(** The state a root is searched from: the sets of the outer loop and two
    empty arrays. *)
Definition freshArrays (st : StC) : StC :=
  Cycles.mkState (Cycles.visited st) (Cycles.recursionStack st)
    (mkCycle [] []).

(** [runs] are the searches of the outer loop over [ns] from [st]: a node
    whose NodeID is visited at its turn is passed over, any other is
    searched, once, from the state the search before it left. *)
Fixpoint rootRuns (fuel : nat) (ns : list Node) (st : StC)
    (runs : list RunC) : Prop :=
  match ns with
  | [] => runs = []
  | node :: rest =>
      if decide (identity node ∈ Cycles.visited st) then
        rootRuns fuel rest st runs
      else
        match runs with
        | [] => False
        | run :: runs' =>
            runRoot run = node ∧ runBefore run = st ∧
            Cycles.dagDFS graph identity compare fuel node (freshArrays st)
            = Some (runSignalled run, runAfter run) ∧
            rootRuns fuel rest (runAfter run) runs'
        end
  end.

(** The records of the searches: the two arrays, as it left them, of every
    search that signalled a cycle. *)
Definition recordsOf (runs : list RunC) : list (Cycle Node) :=
  map (λ run, Cycles.live (runAfter run))
    (filter (λ run, runSignalled run = true) runs).

(** The arrays of [st] are those of the moment a cycle was detected: the
    last node is the one whose edge loop was running, the last edge is the
    edge of the graph it was exploring, and the neighbour at the end of
    that edge is visited and on the recursion stack.  Nothing was pushed
    or popped afterwards, and the stack was not unwound. *)
Definition stoppedAtDetection (st : StC) : Prop :=
  ∃ ns n es e,
    cycleNodes (Cycles.live st) = ns ++ [n] ∧
    cycleEdges (Cycles.live st) = es ++ [e] ∧
    e ∈ edges graph ∧ compare (from e) n = 0%Z ∧
    identity (to e) ∈ Cycles.visited st ∧
    identity (to e) ∈ Cycles.recursionStack st ∧
    identity n ∈ Cycles.recursionStack st.

(** A search that signals a cycle returns the state of the detection. *)
Definition detects (rec : Node → StC → option (bool * StC)) : Prop :=
  ∀ nb (st st' : StC), rec nb st = Some (true, st') → stoppedAtDetection st'.

End CycleRuns.

(** ** Concrete graphs over [nat], used to run the embedding *)

Definition natIdentity : NodeIdentitySupplier nat nat := fun n => n.
Definition natCompare : NodeComparator nat :=
  fun a b => (Z.of_nat a - Z.of_nat b)%Z.

(** A triangle 0 → 1 → 2 → 0. *)
Definition triangle : Graph nat :=
  mkGraph [0; 1; 2] [mkEdge 0 1; mkEdge 1 2; mkEdge 2 0].

(** A diamond 0 → 1, 0 → 2, 1 → 3, 2 → 3, its nodes listed backwards. *)
Definition diamond : Graph nat :=
  mkGraph [3; 2; 1; 0] [mkEdge 0 1; mkEdge 0 2; mkEdge 1 3; mkEdge 2 3].

(** A two-node cycle 0 → 1 → 0 followed by a self-loop on 1. *)
Definition loopAfterCycle : Graph nat :=
  mkGraph [0; 1] [mkEdge 0 1; mkEdge 1 0; mkEdge 1 1].

(** A chain 0 → 1 → 2 with the shortcut 0 → 2: the search from node 0
    visits every node, the outer loop then meets nodes 1 and 2 visited. *)
Definition chain : Graph nat :=
  mkGraph [0; 1; 2] [mkEdge 0 1; mkEdge 1 2; mkEdge 0 2].

(** One node with a self-loop. *)
Definition selfLoop : Graph nat := mkGraph [0] [mkEdge 0 0].

(** An edge whose [to] is no node of the graph. *)
Definition dangling : Graph nat := mkGraph [0] [mkEdge 0 5].

(** One node and an edge from it to the target 5, which is no node. *)
Definition edgeToTarget : Graph nat := mkGraph [9] [mkEdge 9 5].

(** A self-loop on 0 and an edge 1 → 0 into it. *)
Definition intoLoop : Graph nat := mkGraph [0; 1] [mkEdge 0 0; mkEdge 1 0].

(** Three nodes and no edge. *)
Definition noEdges : Graph nat := mkGraph [0; 1; 2] [].

(** Two nodes that share one NodeID, the second with a self-loop. *)
Definition aliased : Graph nat := mkGraph [0; 1] [mkEdge 1 1].
Definition oneIdentity : NodeIdentitySupplier nat nat := fun _ => 0.

(** The state of [dagDFS] on entry to node 0 of a fresh search. *)
Definition entered0 : @Cycles.State nat nat _ _ :=
  Cycles.pushNode 0 (Cycles.mkState {[0]} {[0]} (mkCycle [] [])).

(** Labels [A] for node 0 and [B] for the others, and an edge label from
    [A] to [B]. *)
Definition abNode (n : nat) : PumlNode.t :=
  match n with
  | O => PumlNode.mk "A" None
  | _ => PumlNode.mk "B" None
  end.

Definition abEdge (e : Edge nat) : PumlEdge.t := PumlEdge.mk "A" "B" None.


(** * Properties *)

(** ** Paths on nodes and on identities *)

Section PathFacts.
Context {Node NodeID : Type} `{Countable NodeID}.
Variable graph : Graph Node.
Variable identity : NodeIdentitySupplier Node NodeID.

Local Abbreviation nodeE := (nodeEdge graph).
Local Abbreviation idE := (idEdge graph identity).

Lemma nodeEdge_idEdge a b : nodeE a b → idE (identity a) (identity b).
Proof. intros (e & He & <- & <-). by exists e. Qed.

Lemma tc_nodeEdge_idEdge a b :
  tc nodeE a b → tc idE (identity a) (identity b).
Proof.
  induction 1 as [a b Hab | a b c Hab _ IH].
  - apply tc_once. by apply nodeEdge_idEdge.
  - eapply tc_l; [by apply nodeEdge_idEdge | done].
Qed.

Lemma tc_idEdge_nodeEdge x y :
  (∀ a b, identity a = identity b → a = b) →
  tc idE x y →
  ∃ a b, identity a = x ∧ identity b = y ∧ tc nodeE a b.
Proof.
  intros Hinj.
  induction 1 as [x y (e & He & <- & <-) | x y z (e & He & <- & Hy) _ IH].
  - exists (from e), (to e). split_and!; [done..|]. apply tc_once. by exists e.
  - destruct IH as (a & b & Ha & Hb & Hab).
    exists (from e), b. split_and!; [done..|].
    eapply tc_l; [|done]. exists e. split_and!; [done..|].
    apply Hinj. congruence.
Qed.

Lemma tc_nodeEdge_from a b :
  tc nodeE a b → ∃ e, e ∈ edges graph ∧ from e = a.
Proof.
  destruct 1 as [a b (e & ? & ? & ?) | a b c (e & ? & ? & ?) _]; eauto.
Qed.

Lemma idClosed_tc (B : gset NodeID) u w :
  idClosed graph identity B → u ∈ B → tc idE u w → w ∈ B.
Proof. intros HB Hu Hp. induction Hp; eauto. Qed.

Lemma elem_of_targetIds e :
  e ∈ edges graph → identity (to e) ∈ targetIds graph identity.
Proof.
  intros He. unfold targetIds. apply elem_of_list_to_set.
  apply list_elem_of_fmap. by exists e.
Qed.

Lemma size_list_to_set_le (l : list NodeID) :
  size (list_to_set l : gset NodeID) ≤ length l.
Proof.
  induction l as [|x l IH].
  - change (size (∅ : gset NodeID) ≤ 0). by rewrite size_empty.
  - change (size ({[x]} ∪ list_to_set l : gset NodeID) ≤ S (length l)).
    rewrite size_union_alt, size_singleton.
    assert (size (list_to_set l ∖ {[x]} : gset NodeID)
            ≤ size (list_to_set l : gset NodeID)) as Hs
      by (apply subseteq_size; set_solver).
    lia.
Qed.

Lemma targetIds_size : size (targetIds graph identity) ≤ length (edges graph).
Proof.
  unfold targetIds. etrans; [apply size_list_to_set_le|].
  by rewrite length_map.
Qed.

(** Marking one more target identity leaves room for one call less. *)
Lemma size_unvisited_lt (U V : gset NodeID) x :
  x ∈ U → x ∉ V → size (U ∖ ({[x]} ∪ V)) < size (U ∖ V).
Proof. intros HU HV. apply subset_size. set_solver. Qed.

Lemma size_unvisited_mono (U V V' : gset NodeID) :
  V ⊆ V' → size (U ∖ V') ≤ size (U ∖ V).
Proof. intros HV. apply subseteq_size. set_solver. Qed.
End PathFacts.

(** ** [dagIsCyclicalDFS] *)

Section IsCyclicalFacts.
Context {Node NodeID : Type} `{Countable NodeID}.
Variable graph : Graph Node.
Variable identity : NodeIdentitySupplier Node NodeID.
Variable compare : NodeComparator Node.
Import IsCyclical.

Local Abbreviation St := (@State NodeID _ _).
Local Abbreviation dfs := (dagDFS graph identity compare).
Local Abbreviation loop := (edgeLoop identity compare).
Local Abbreviation U := (targetIds graph identity).
Local Abbreviation idE := (idEdge graph identity).
Local Abbreviation returnsWithin := (returnsWithin graph identity).
Local Abbreviation Inv := (Inv graph identity).
Local Abbreviation dfsSpec := (dfsSpec graph identity).
Local Abbreviation keepsStack := (keepsStack identity).

(** *** The recursion budget suffices *)

Lemma edgeLoop_returns rec n node es st :
  returnsWithin rec n →
  (∀ e, e ∈ es → e ∈ edges graph) →
  size (U ∖ visited st) ≤ n →
  ∃ b st', loop rec node es st = Some (b, st') ∧ visited st ⊆ visited st'.
Proof.
  intros Hrec. revert st.
  induction es as [|e es IH]; intros st Hes Hsz; cbn [edgeLoop].
  - eexists _, _. split; [done|]. done.
  - assert (∀ e', e' ∈ es → e' ∈ edges graph) as Hes'
      by (intros; apply Hes; by right).
    repeat case_decide; eauto.
    destruct (Hrec (to e) st) as (b & st1 & -> & Hsub);
      [apply elem_of_targetIds, Hes; by left | done..|].
    destruct b; [eauto|].
    assert (size (U ∖ visited st1) ≤ n) as Hsz1
      by (etrans; [by apply size_unvisited_mono|done]).
    case_decide; [eauto|].
    destruct (IH st1 Hes' Hsz1) as (b & st2 & -> & Hsub2).
    eexists _, _. split; [done|]. set_solver.
Qed.

Lemma dagDFS_returns fuel node st :
  size (U ∖ ({[identity node]} ∪ visited st)) < fuel →
  ∃ b st', dfs fuel node st = Some (b, st') ∧ visited st ⊆ visited st'.
Proof.
  revert node st. induction fuel as [|fuel IH]; intros node st Hsz; [lia|].
  cbn [dagDFS].
  edestruct (edgeLoop_returns (dfs fuel) fuel node (edges graph)
               (mkState ({[identity node]} ∪ visited st)
                  ({[identity node]} ∪ recursionStack st))) as
    (b & st' & Hrun & Hsub); [|done| |].
  - intros nb st2 HU Hnb Hsz2. apply IH.
    pose proof (size_unvisited_lt U (visited st2) _ HU Hnb). lia.
  - cbn [visited]. lia.
  - rewrite Hrun. eexists _, _. split; [done|]. cbn [visited] in Hsub.
    set_solver.
Qed.

Lemma dagDFS_root_returns node st :
  ∃ b st', dfs (S (length (edges graph))) node st = Some (b, st').
Proof.
  destruct (dagDFS_returns (S (length (edges graph))) node st)
    as (b & st' & Hrun & _); [|eauto].
  pose proof (targetIds_size graph identity).
  assert (size (U ∖ ({[identity node]} ∪ visited st)) ≤ size U)
    by (apply subseteq_size; set_solver).
  lia.
Qed.

Lemma rootLoop_returns ns st :
  ∃ b, rootLoop graph identity compare (S (length (edges graph))) ns st
       = Some b.
Proof.
  revert st. induction ns as [|node ns IH]; intros st; cbn [rootLoop].
  - eauto.
  - destruct (dagDFS_root_returns node st) as ([] & st' & ->); eauto.
Qed.

Lemma rootLoopUnvisited_returns ns st :
  ∃ b, rootLoopUnvisited graph identity compare (S (length (edges graph)))
         ns st = Some b.
Proof.
  revert st. induction ns as [|node ns IH]; intros st;
    cbn [rootLoopUnvisited].
  - eauto.
  - case_decide; [done|].
    destruct (dagDFS_root_returns node st) as ([] & st' & ->); eauto.
Qed.

(** *** The search invariant

    The finished identities ([visited] but no longer on the recursion
    stack) are closed under the edges and lie on no cycle. *)

Lemma Inv_empty : Inv (mkState ∅ ∅).
Proof.
  split_and!; cbn [visited recursionStack]; [done| |];
    intros u; set_solver.
Qed.

Section Consistent.
Hypothesis compare_zero :
  ∀ a b, compare a b = 0%Z ↔ identity a = identity b.

Lemma edgeLoop_spec rec node es (st : St) b st' :
  dfsSpec rec →
  (∀ e, e ∈ es → e ∈ edges graph) →
  Inv st → identity node ∈ recursionStack st →
  (∀ s, s ∈ recursionStack st → rtc idE s (identity node)) →
  loop rec node es st = Some (b, st') →
  if (b : bool) then ∃ x, tc idE x x
  else recursionStack st' = recursionStack st ∖ {[identity node]} ∧
       visited st ⊆ visited st' ∧
       idClosed graph identity (visited st' ∖ recursionStack st) ∧
       idNoCycle graph identity (visited st' ∖ recursionStack st) ∧
       (∀ e, e ∈ es → identity (from e) = identity node →
             identity (to e) ∈ visited st' ∖ recursionStack st).
Proof.
  intros Hrec. revert st.
  induction es as [|e es IH]; intros st Hes (Hsub & Hcl & Hnc) Hnode Hreach Hrun;
    cbn [edgeLoop] in Hrun.
  - injection Hrun as <- <-. cbn [visited recursionStack].
    split_and!; [done..|]. intros e He. by apply elem_of_nil in He.
  - assert (∀ e', e' ∈ es → e' ∈ edges graph) as Hes'
      by (intros; apply Hes; by right).
    assert (e ∈ edges graph) as Hin by (apply Hes; by left).
    destruct (decide (compare (from e) node = 0%Z)) as [Hcmp|Hcmp].
    + apply compare_zero in Hcmp.
      assert (idE (identity node) (identity (to e))) as Hstep by (by exists e).
      destruct (decide (identity (to e) ∈ visited st)) as [Hvis|Hvis].
      * destruct (decide (identity (to e) ∈ recursionStack st)) as [Hstk|Hstk].
        { injection Hrun as <- <-. exists (identity node).
          eapply tc_rtc_r; [by apply tc_once | by apply Hreach]. }
        specialize (IH st Hes' (conj Hsub (conj Hcl Hnc)) Hnode Hreach Hrun).
        destruct b; [done|]. destruct IH as (? & ? & ? & ? & Hd).
        split_and!; [done..|]. intros e' [->|He']%elem_of_cons Hfrom;
          [set_solver | by apply Hd].
      * destruct (rec (to e) st) as [[[] st1]|] eqn:Hcall; [| |done].
        { injection Hrun as <- <-.
          apply (Hrec _ _ _ _ (conj Hsub (conj Hcl Hnc)) Hvis) in Hcall;
            [done|].
          intros s Hs. eapply rtc_r; [by apply Hreach | done]. }
        apply (Hrec _ _ _ _ (conj Hsub (conj Hcl Hnc)) Hvis) in Hcall;
          [|intros s Hs; eapply rtc_r; [by apply Hreach | done]].
        destruct Hcall as (Hstk1 & Hvis1 & Hnb1 & Hinv1).
        destruct (decide (identity (to e) ∈ recursionStack st1)) as [Hstk|_];
          [set_solver|].
        specialize (IH st1 Hes' Hinv1). rewrite Hstk1 in IH.
        specialize (IH Hnode Hreach Hrun).
        destruct b; [done|]. destruct IH as (? & ? & ? & ? & Hd).
        split_and!; [done | set_solver | done..|].
        intros e' [->|He']%elem_of_cons Hfrom; [set_solver | by apply Hd].
    + specialize (IH st Hes' (conj Hsub (conj Hcl Hnc)) Hnode Hreach Hrun).
      destruct b; [done|]. destruct IH as (? & ? & ? & ? & Hd).
      split_and!; [done..|]. intros e' [->|He']%elem_of_cons Hfrom;
        [by apply compare_zero in Hfrom | by apply Hd].
Qed.

Lemma dagDFS_spec fuel : dfsSpec (dfs fuel).
Proof.
  induction fuel as [|fuel IH]; intros node st b st' Hinv Hvis Hreach Hrun;
    [done|].
  cbn [dagDFS] in Hrun. destruct Hinv as (Hsub & Hcl & Hnc).
  set (st1 := mkState ({[identity node]} ∪ visited st)
                ({[identity node]} ∪ recursionStack st)) in *.
  assert (visited st1 ∖ recursionStack st1
          = visited st ∖ recursionStack st) as Hblack
    by (subst st1; cbn [visited recursionStack]; set_solver).
  apply edgeLoop_spec in Hrun; [|done|done| | |].
  - destruct b; [done|]. destruct Hrun as (Hstk' & Hvis' & Hcl' & Hnc' & Hd).
    subst st1. cbn [visited recursionStack] in *.
    assert (recursionStack st' = recursionStack st) as Hstk by set_solver.
    split_and!; [done | set_solver | set_solver |].
    unfold Inv. rewrite Hstk. split_and!; [set_solver | |].
    + intros u w Hu (e & He & Hfrom & Hto).
      destruct (decide (u = identity node)) as [->|Hne].
      * specialize (Hd e He Hfrom). set_solver.
      * assert (w ∈ visited st' ∖ ({[identity node]} ∪ recursionStack st))
          by (eapply Hcl'; [|by exists e]; set_solver).
        set_solver.
    + intros u Hu Hcyc.
      destruct (decide (u = identity node)) as [->|Hne].
      * assert (identity node
                ∈ visited st' ∖ ({[identity node]} ∪ recursionStack st));
          [|set_solver].
        inversion Hcyc as [? ? (e & He & Hfrom & Hto)
                          | ? w ? (e & He & Hfrom & Hto) Hrest]; subst.
        { rewrite <- Hto at 1. by apply Hd. }
        eapply idClosed_tc; [done | | done]. by apply Hd.
      * eapply Hnc'; [|done]. set_solver.
  - split_and!; [subst st1; cbn [visited recursionStack]; set_solver | |];
      by rewrite Hblack.
  - subst st1. cbn [recursionStack]. set_solver.
  - subst st1. cbn [recursionStack]. intros s [->%elem_of_singleton|Hs]%elem_of_union;
      [done | by apply Hreach].
Qed.

(** Searching a finished node again changes nothing. *)
Lemma edgeLoop_finished rec node es (st : St) :
  (∀ e, e ∈ es → identity (from e) = identity node →
        identity (to e) ∈ visited st ∧ identity (to e) ∉ recursionStack st) →
  loop rec node es st
  = Some (false, mkState (visited st)
                   (recursionStack st ∖ {[identity node]})).
Proof.
  induction es as [|e es IH]; intros Hes; cbn [edgeLoop]; [done|].
  assert (∀ e', e' ∈ es → identity (from e') = identity node →
            identity (to e') ∈ visited st ∧
            identity (to e') ∉ recursionStack st) as Hes'
    by (intros; apply Hes; [by right | done]).
  destruct (decide (compare (from e) node = 0%Z)) as [Hcmp|Hcmp]; [|by apply IH].
  apply compare_zero in Hcmp.
  destruct (Hes e) as [Hvis Hstk]; [by left | done |].
  rewrite decide_True by done. rewrite decide_False by done. by apply IH.
Qed.

Lemma dagDFS_finished fuel node (st : St) :
  Inv st → identity node ∈ visited st → identity node ∉ recursionStack st →
  dfs (S fuel) node st = Some (false, st).
Proof.
  intros (Hsub & Hcl & Hnc) Hvis Hstk. cbn [dagDFS].
  rewrite edgeLoop_finished.
  - cbn [visited recursionStack]. destruct st as [v r].
    cbn [visited recursionStack] in *.
    replace ({[identity node]} ∪ v) with v by set_solver.
    by replace (({[identity node]} ∪ r) ∖ {[identity node]}) with r
      by set_solver.
  - cbn [visited recursionStack]. intros e He Hfrom.
    assert (idE (identity node) (identity (to e))) as Hstep by (by exists e).
    assert (identity (to e) ∈ visited st ∖ recursionStack st) as Hto
      by (eapply Hcl; [|done]; set_solver).
    assert (identity (to e) ≠ identity node) as Hne.
    { intros Heq. apply (Hnc (identity node)); [set_solver|].
      apply tc_once. by rewrite <- Heq at 2. }
    set_solver.
Qed.

Lemma rootLoop_spec fuel ns (st : St) b :
  Inv st → recursionStack st = ∅ →
  rootLoop graph identity compare fuel ns st = Some b →
  if (b : bool) then ∃ x, tc idE x x
  else ∀ n, n ∈ ns → ¬ tc idE (identity n) (identity n).
Proof.
  revert st. induction ns as [|node ns IH]; intros st Hinv Hstk Hrun;
    cbn [rootLoop] in Hrun.
  - injection Hrun as <-. intros n Hn. by apply elem_of_nil in Hn.
  - destruct (dfs fuel node st) as [[b0 st1]|] eqn:Hcall; [|done].
    assert (b0 = true ∧ b = true ∧ (∃ x, tc idE x x) ∨
            b0 = false ∧ Inv st1 ∧ recursionStack st1 = ∅ ∧
            identity node ∈ visited st1) as Hcases.
    { destruct (decide (identity node ∈ visited st)) as [Hvis|Hvis].
      - destruct fuel as [|fuel]; [done|].
        rewrite dagDFS_finished in Hcall by (done || set_solver).
        injection Hcall as <- <-. by right.
      - apply dagDFS_spec in Hcall; [|done..|set_solver].
        destruct b0.
        + left. by injection Hrun as <-.
        + right. destruct Hcall as (-> & ? & ? & ?). done. }
    destruct Hcases as [(-> & -> & Hcyc)|(-> & Hinv1 & Hstk1 & Hvis1)]; [done|].
    specialize (IH st1 Hinv1 Hstk1 Hrun). destruct b; [done|].
    intros n [->|Hn]%elem_of_cons; [|by apply IH].
    destruct Hinv1 as (_ & _ & Hnc). apply Hnc. set_solver.
Qed.

Lemma rootLoop_rootLoopUnvisited fuel ns (st : St) :
  Inv st → recursionStack st = ∅ →
  rootLoop graph identity compare (S fuel) ns st
  = rootLoopUnvisited graph identity compare (S fuel) ns st.
Proof.
  revert st. induction ns as [|node ns IH]; intros st Hinv Hstk; [done|].
  cbn [rootLoop rootLoopUnvisited].
  destruct (decide (identity node ∈ visited st)) as [Hvis|Hvis].
  - rewrite dagDFS_finished by (done || set_solver). by apply IH.
  - destruct (dfs (S fuel) node st) as [[[] st1]|] eqn:Hcall; [done| |done].
    apply dagDFS_spec in Hcall; [|done..|set_solver].
    destruct Hcall as (Hstk1 & _ & _ & Hinv1). apply IH; [done|congruence].
Qed.

End Consistent.

(** *** Self-loops

    No hypothesis on [identity] or [compare] here: a search that returns
    [false] leaves on the recursion stack what was there and visited. *)

Lemma edgeLoop_keepsStack rec node es (st st' : St) :
  keepsStack rec →
  loop rec node es st = Some (false, st') →
  visited st ⊆ visited st' ∧
  ∀ x, x ∈ visited st → x ∈ recursionStack st → x ≠ identity node →
       x ∈ recursionStack st'.
Proof.
  intros Hrec. revert st.
  induction es as [|e es IH]; intros st Hrun; cbn [edgeLoop] in Hrun.
  - injection Hrun as <-. cbn [visited recursionStack]. set_solver.
  - destruct (decide (compare (from e) node = 0%Z)); [|by apply IH].
    destruct (decide (identity (to e) ∈ visited st)) as [Hvis|Hvis].
    + destruct (decide (identity (to e) ∈ recursionStack st)); [done|].
      by apply IH.
    + destruct (rec (to e) st) as [[[] st1]|] eqn:Hcall; [done| |done].
      destruct (decide (identity (to e) ∈ recursionStack st1)); [done|].
      destruct (Hrec _ _ _ Hvis Hcall) as [Hv1 Hs1].
      destruct (IH _ Hrun) as [Hv2 Hs2]. split; [set_solver|].
      intros x Hx Hxs Hne. apply Hs2; [set_solver | by apply Hs1 | done].
Qed.

Lemma dagDFS_keepsStack fuel : keepsStack (dfs fuel).
Proof.
  induction fuel as [|fuel IH]; intros node st st' Hvis Hrun; [done|].
  cbn [dagDFS] in Hrun.
  apply (edgeLoop_keepsStack _ _ _ _ _ IH) in Hrun.
  cbn [visited recursionStack] in Hrun. destruct Hrun as [Hv Hs].
  split; [set_solver|]. intros x Hx Hxs. apply Hs; set_solver.
Qed.

Lemma edgeLoop_selfLoop rec node es (st : St) b st' e :
  keepsStack rec →
  e ∈ es → compare (from e) node = 0%Z → identity (to e) = identity node →
  identity node ∈ visited st → identity node ∈ recursionStack st →
  loop rec node es st = Some (b, st') → b = true.
Proof.
  intros Hrec He Hcmp Hto. revert st.
  induction es as [|e0 es IH]; intros st Hvis Hstk Hrun;
    [by apply elem_of_nil in He|].
  cbn [edgeLoop] in Hrun. apply elem_of_cons in He as [<-|He].
  - rewrite decide_True in Hrun by done. rewrite Hto in Hrun.
    rewrite !decide_True in Hrun by done. by injection Hrun as <-.
  - destruct (decide (compare (from e0) node = 0%Z)); [|by eapply IH].
    destruct (decide (identity (to e0) ∈ visited st)) as [Hv0|Hv0].
    + destruct (decide (identity (to e0) ∈ recursionStack st));
        [by injection Hrun as <- | by eapply IH].
    + destruct (rec (to e0) st) as [[[] st1]|] eqn:Hcall; [| |done].
      { by injection Hrun as <-. }
      destruct (decide (identity (to e0) ∈ recursionStack st1));
        [by injection Hrun as <-|].
      destruct (Hrec _ _ _ Hv0 Hcall) as [Hv1 Hs1].
      eapply (IH He st1); [set_solver | by apply Hs1 | done].
Qed.

Lemma dagDFS_selfLoop fuel node (st : St) b st' e :
  e ∈ edges graph → compare (from e) node = 0%Z →
  identity (to e) = identity node →
  dfs fuel node st = Some (b, st') → b = true.
Proof.
  intros He Hcmp Hto Hrun. destruct fuel as [|fuel]; [done|].
  cbn [dagDFS] in Hrun.
  eapply edgeLoop_selfLoop in Hrun; [done | apply dagDFS_keepsStack | done..| |];
    cbn [visited recursionStack]; set_solver.
Qed.

Lemma rootLoop_selfLoop fuel ns (st : St) b node e :
  node ∈ ns → e ∈ edges graph → compare (from e) node = 0%Z →
  identity (to e) = identity node →
  rootLoop graph identity compare fuel ns st = Some b → b = true.
Proof.
  intros Hn He Hcmp Hto. revert st.
  induction ns as [|n0 ns IH]; intros st Hrun; [by apply elem_of_nil in Hn|].
  cbn [rootLoop] in Hrun.
  destruct (dfs fuel n0 st) as [[[] st1]|] eqn:Hcall; [| |done].
  - by injection Hrun as <-.
  - apply elem_of_cons in Hn as [->|Hn].
    + by apply (dagDFS_selfLoop _ _ _ _ _ _ He Hcmp Hto) in Hcall.
    + by eapply IH.
Qed.

End IsCyclicalFacts.

(** ** [dagCyclesDFS] *)

Section CyclesFacts.
Context {Node NodeID : Type} `{Countable NodeID}.
Variable graph : Graph Node.
Variable identity : NodeIdentitySupplier Node NodeID.
Variable compare : NodeComparator Node.
Import Cycles.

Local Abbreviation St := (@State Node NodeID _ _).
Local Abbreviation dfs := (dagDFS graph identity compare).
Local Abbreviation loop := (edgeLoop identity compare).
Local Abbreviation explore := (exploreEdge identity).
Local Abbreviation U := (targetIds graph identity).
Local Abbreviation marks := (marks identity).
Local Abbreviation cyclesReturnWithin := (cyclesReturnWithin graph identity).
Local Abbreviation cyclesKeepStack := (cyclesKeepStack identity).

(** *** What a search does to [visited] and to the two arrays *)

Lemma exploreEdge_visited rec edge (st : St) b st' :
  marks rec →
  explore rec edge st = Some (b, st') → visited st ⊆ visited st'.
Proof.
  intros Hrec Hrun. unfold exploreEdge in Hrun.
  repeat case_decide; simplify_eq; cbn [visited pushEdge popEdge]; [done..|].
  destruct (rec _ _) as [[[] st2]|] eqn:Hcall; simplify_eq;
    apply Hrec in Hcall; cbn [visited pushEdge popEdge] in *; set_solver.
Qed.

Lemma edgeLoop_visited rec node es (st : St) b st' :
  marks rec →
  loop rec node es st = Some (b, st') → visited st ⊆ visited st'.
Proof.
  intros Hrec. revert st.
  induction es as [|e es IH]; intros st Hrun; cbn [edgeLoop] in Hrun.
  - by simplify_eq.
  - case_decide; [|by apply IH].
    destruct (explore rec e st) as [[[] st1]|] eqn:Hstep; simplify_eq.
    + by eapply exploreEdge_visited.
    + etrans; [by eapply exploreEdge_visited | by apply IH].
Qed.

Lemma dagDFS_marks fuel : marks (dfs fuel).
Proof.
  induction fuel as [|fuel IH]; intros node st b st' Hrun; [done|].
  cbn [dagDFS] in Hrun. by apply (edgeLoop_visited _ _ _ _ _ _ IH) in Hrun.
Qed.

Lemma exploreEdge_extends rec edge (st : St) b st' :
  extends rec →
  explore rec edge st = Some (b, st') →
  if (b : bool) then
    ∃ ns es, cycleNodes (live st') = cycleNodes (live st) ++ ns ∧
             cycleEdges (live st') = cycleEdges (live st) ++ edge :: es
  else live st' = live st.
Proof.
  intros Hrec Hrun. unfold exploreEdge in Hrun.
  destruct st as [v r [cn ce]].
  repeat case_decide; simplify_eq; cbn [live pushEdge popEdge cycleNodes cycleEdges].
  - exists [], []. by rewrite app_nil_r.
  - by rewrite removelast_last.
  - destruct (rec _ _) as [[[] st2]|] eqn:Hcall; simplify_eq;
      apply Hrec in Hcall; cbn [live pushEdge popEdge cycleNodes cycleEdges] in *.
    + destruct Hcall as (ns & es & -> & ->). exists (to edge :: ns), es.
      by rewrite <- app_assoc.
    + rewrite Hcall. cbn [cycleNodes cycleEdges]. by rewrite removelast_last.
Qed.

Lemma edgeLoop_extends rec node es (st : St) b st' :
  extends rec →
  loop rec node es st = Some (b, st') →
  if (b : bool) then
    ∃ ns es', cycleNodes (live st') = cycleNodes (live st) ++ ns ∧
              cycleEdges (live st') = cycleEdges (live st) ++ es'
  else live st' = mkCycle (removelast (cycleNodes (live st)))
                    (cycleEdges (live st)).
Proof.
  intros Hrec. revert st.
  induction es as [|e es IH]; intros st Hrun; cbn [edgeLoop] in Hrun.
  - by simplify_eq.
  - case_decide; [|by apply IH].
    destruct (explore rec e st) as [[[] st1]|] eqn:Hstep; simplify_eq.
    + apply (exploreEdge_extends _ _ _ _ _ Hrec) in Hstep.
      destruct Hstep as (ns & es' & ? & ?). eauto.
    + apply (exploreEdge_extends _ _ _ _ _ Hrec) in Hstep.
      apply IH in Hrun. by rewrite Hstep in Hrun.
Qed.

Lemma dagDFS_extends fuel : extends (dfs fuel).
Proof.
  induction fuel as [|fuel IH]; intros node st b st' Hrun; [done|].
  cbn [dagDFS] in Hrun. apply (edgeLoop_extends _ _ _ _ _ _ IH) in Hrun.
  destruct st as [v r [cn ce]].
  cbn [live pushNode cycleNodes cycleEdges] in *. destruct b.
  - destruct Hrun as (ns & es & -> & ->). exists ns, es.
    by rewrite <- app_assoc.
  - by rewrite removelast_last in Hrun.
Qed.

(** *** The recursion budget suffices *)

Lemma cycles_edgeLoop_returns rec n node es (st : St) :
  cyclesReturnWithin rec n → marks rec →
  (∀ e, e ∈ es → e ∈ edges graph) →
  size (U ∖ visited st) ≤ n →
  ∃ b st', loop rec node es st = Some (b, st').
Proof.
  intros Hrec Hmarks. revert st.
  induction es as [|e es IH]; intros st Hes Hsz; cbn [edgeLoop]; [eauto|].
  assert (∀ e', e' ∈ es → e' ∈ edges graph) as Hes'
    by (intros; apply Hes; by right).
  case_decide; [|by apply IH].
  assert (∃ b st1, explore rec e st = Some (b, st1)) as (b & st1 & Hstep).
  { unfold exploreEdge. repeat case_decide; eauto.
    destruct (Hrec (to e) (pushEdge e st)) as ([] & st2 & ->); eauto.
    apply elem_of_targetIds, Hes. by left. }
  rewrite Hstep. destruct b; [eauto|].
  apply IH; [done|].
  etrans; [apply size_unvisited_mono; by eapply exploreEdge_visited | done].
Qed.

Lemma cycles_dagDFS_returns fuel node (st : St) :
  size (U ∖ ({[identity node]} ∪ visited st)) < fuel →
  ∃ b st', dfs fuel node st = Some (b, st').
Proof.
  revert node st. induction fuel as [|fuel IH]; intros node st Hsz; [lia|].
  cbn [dagDFS].
  apply (cycles_edgeLoop_returns (dfs fuel) fuel);
    [|apply dagDFS_marks|done|cbn [visited pushNode]; lia].
  intros nb st2 HU Hnb Hsz2. apply IH.
  pose proof (size_unvisited_lt U (visited st2) _ HU Hnb). lia.
Qed.

Lemma cycles_dagDFS_root_returns node (st : St) :
  ∃ b st', dfs (S (length (edges graph))) node st = Some (b, st').
Proof.
  apply cycles_dagDFS_returns.
  pose proof (targetIds_size graph identity).
  assert (size (U ∖ ({[identity node]} ∪ visited st)) ≤ size U)
    by (apply subseteq_size; set_solver).
  lia.
Qed.

(** *** One record per root *)

Lemma rootLoop_records ns (st : St) cycleList :
  ∃ found roots,
    rootLoop graph identity compare (S (length (edges graph))) ns st cycleList
    = Some (cycleList ++ found) ∧
    sublist roots ns ∧ Forall2 headedBy roots found.
Proof.
  revert st cycleList.
  induction ns as [|node ns IH]; intros st cycleList; cbn [rootLoop].
  - exists [], []. by rewrite app_nil_r.
  - case_decide.
    { destruct (IH st cycleList) as (found & roots & -> & Hsub & Hall).
      exists found, roots. split_and!; [done | by apply sublist_cons | done]. }
    destruct (cycles_dagDFS_root_returns node
                (mkState (visited st) (recursionStack st) (mkCycle [] [])))
      as (b & st1 & Hcall).
    rewrite Hcall. destruct b.
    + apply dagDFS_extends in Hcall. cbn [live cycleNodes] in Hcall.
      destruct Hcall as (nodes' & _ & Hnodes & _).
      destruct (IH st1 (cycleList ++ [live st1]))
        as (found & roots & -> & Hsub & Hall).
      exists (live st1 :: found), (node :: roots).
      split_and!; [by rewrite <- app_assoc | by apply sublist_skip |].
      constructor; [by exists nodes' | done].
    + destruct (IH st1 cycleList) as (found & roots & -> & Hsub & Hall).
      exists found, roots. split_and!; [done | by apply sublist_cons | done].
Qed.

(** *** Self-loops *)

Lemma exploreEdge_keepsStack rec edge (st st' : St) :
  cyclesKeepStack rec →
  explore rec edge st = Some (false, st') →
  ∀ x, x ∈ visited st → x ∈ recursionStack st → x ∈ recursionStack st'.
Proof.
  intros Hrec Hrun. unfold exploreEdge in Hrun.
  repeat case_decide; simplify_eq; [done|].
  destruct (rec _ _) as [[[] st2]|] eqn:Hcall; simplify_eq.
  by apply Hrec in Hcall.
Qed.

Lemma cycles_edgeLoop_keepsStack rec node es (st st' : St) :
  cyclesKeepStack rec → marks rec →
  loop rec node es st = Some (false, st') →
  ∀ x, x ∈ visited st → x ∈ recursionStack st → x ≠ identity node →
       x ∈ recursionStack st'.
Proof.
  intros Hrec Hmarks. revert st.
  induction es as [|e es IH]; intros st Hrun; cbn [edgeLoop] in Hrun.
  - simplify_eq. cbn [recursionStack popNode]. set_solver.
  - case_decide; [|by apply IH].
    destruct (explore rec e st) as [[[] st1]|] eqn:Hstep; simplify_eq.
    intros x Hx Hxs Hne. apply (IH _ Hrun); [|by eapply exploreEdge_keepsStack|done].
    by eapply exploreEdge_visited.
Qed.

Lemma cycles_dagDFS_keepsStack fuel : cyclesKeepStack (dfs fuel).
Proof.
  induction fuel as [|fuel IH]; intros node st st' Hvis Hrun; [done|].
  cbn [dagDFS] in Hrun. intros x Hx Hxs.
  eapply (cycles_edgeLoop_keepsStack _ _ _ _ _ IH (dagDFS_marks fuel) Hrun);
    cbn [visited recursionStack pushNode]; set_solver.
Qed.

Section SelfLoop.
Variable n : Node.
Variable e : Edge Node.
Hypothesis e_edge : e ∈ edges graph.
Hypothesis e_from : compare (from e) n = 0%Z.
Hypothesis e_to : identity (to e) = identity n.

Lemma cycles_edgeLoop_selfLoop rec es (st : St) b st' :
  cyclesKeepStack rec → marks rec → e ∈ es →
  identity n ∈ visited st → identity n ∈ recursionStack st →
  loop rec n es st = Some (b, st') → b = true.
Proof.
  intros Hrec Hmarks He. revert st.
  induction es as [|e0 es IH]; intros st Hvis Hstk Hrun;
    [by apply elem_of_nil in He|].
  cbn [edgeLoop] in Hrun. apply elem_of_cons in He as [<-|He].
  - rewrite decide_True in Hrun by done. unfold exploreEdge in Hrun.
    cbn [visited recursionStack pushEdge] in Hrun. rewrite e_to in Hrun.
    rewrite !decide_True in Hrun by done. by simplify_eq.
  - case_decide; [|by eapply IH].
    destruct (explore rec e0 st) as [[[] st1]|] eqn:Hstep; simplify_eq; [done|].
    eapply (IH He st1); [|by eapply exploreEdge_keepsStack|done].
    by eapply exploreEdge_visited.
Qed.

Lemma cycles_dagDFS_selfLoop fuel (st : St) b st' :
  dfs fuel n st = Some (b, st') → b = true.
Proof.
  intros Hrun. destruct fuel as [|fuel]; [done|]. cbn [dagDFS] in Hrun.
  eapply cycles_edgeLoop_selfLoop in Hrun;
    [done | apply cycles_dagDFS_keepsStack | apply dagDFS_marks | done | |];
    cbn [visited recursionStack pushNode]; set_solver.
Qed.

Hypothesis identity_inj : ∀ a b, identity a = identity b → a = b.

Local Abbreviation entersSpec := (entersSpec identity n).

Lemma exploreEdge_enters rec edge (st : St) b st' :
  entersSpec rec →
  identity n ∉ visited st → explore rec edge st = Some (b, st') →
  identity n ∈ visited st' → b = true ∧ n ∈ cycleNodes (live st').
Proof.
  intros Hrec Hvis Hrun Hvis'. unfold exploreEdge in Hrun.
  repeat case_decide; simplify_eq; [done..|].
  destruct (rec _ _) as [[[] st2]|] eqn:Hcall; simplify_eq.
  - exact (Hrec _ (pushEdge edge st) _ _ Hvis Hcall Hvis').
  - by destruct (Hrec _ (pushEdge edge st) _ _ Hvis Hcall Hvis').
Qed.

Lemma edgeLoop_enters rec node es (st : St) b st' :
  entersSpec rec →
  identity n ∉ visited st → loop rec node es st = Some (b, st') →
  identity n ∈ visited st' → b = true ∧ n ∈ cycleNodes (live st').
Proof.
  intros Hrec. revert st.
  induction es as [|e0 es IH]; intros st Hvis Hrun Hvis';
    cbn [edgeLoop] in Hrun.
  - by simplify_eq.
  - case_decide; [|by eapply IH].
    destruct (explore rec e0 st) as [[b0 st1]|] eqn:Hstep; [|done].
    destruct (decide (identity n ∈ visited st1)) as [Hv1|Hv1].
    + destruct (exploreEdge_enters _ _ _ _ _ Hrec Hvis Hstep Hv1) as [-> ?].
      by simplify_eq.
    + destruct b0; simplify_eq; [done|]. by eapply IH.
Qed.

Lemma dagDFS_enters fuel : entersSpec (dfs fuel).
Proof.
  induction fuel as [|fuel IH]; intros node st b st' Hvis Hrun Hvis'; [done|].
  destruct (decide (identity node = identity n)) as [Heq|Hne].
  - apply identity_inj in Heq as ->.
    pose proof (cycles_dagDFS_selfLoop _ _ _ _ Hrun) as ->. split; [done|].
    apply dagDFS_extends in Hrun as (ns & es & -> & _). set_solver.
  - cbn [dagDFS] in Hrun.
    eapply (edgeLoop_enters _ _ _ _ _ _ IH); [|done..].
    cbn [visited pushNode]. set_solver.
Qed.

Lemma cycles_rootLoop_selfLoop fuel ns (st : St) cycleList found :
  rootLoop graph identity compare fuel ns st cycleList = Some found →
  (identity n ∈ visited st → ∃ r, r ∈ cycleList ∧ n ∈ cycleNodes r) →
  identity n ∈ visited st ∨ n ∈ ns →
  ∃ r, r ∈ found ∧ n ∈ cycleNodes r.
Proof.
  revert st cycleList.
  induction ns as [|node ns IH]; intros st cycleList Hrun Hseen Hn;
    cbn [rootLoop] in Hrun.
  - simplify_eq. destruct Hn as [Hn|Hn]; [by apply Hseen|].
    by apply elem_of_nil in Hn.
  - case_decide as Hroot.
    { apply (IH _ _ Hrun Hseen). destruct Hn as [Hn|[->|Hn]%elem_of_cons]; eauto. }
    set (st0 := mkState (visited st) (recursionStack st) (mkCycle [] []))
      in *.
    destruct (dfs fuel node st0) as [[b st1]|] eqn:Hcall; [|done].
    pose proof (dagDFS_marks _ _ _ _ _ Hcall) as Hmarks.
    cbn [visited] in Hmarks.
    destruct (decide (identity n ∈ visited st)) as [Hvis|Hvis].
    + destruct (Hseen Hvis) as (r & Hr & Hnr).
      assert (identity n ∈ visited st1) as Hvis1 by set_solver.
      destruct b; eapply (IH _ _ Hrun); eauto.
      intros _. exists r. set_solver.
    + destruct (decide (identity n ∈ visited st1)) as [Hvis1|Hvis1].
      * destruct (dagDFS_enters _ _ st0 _ _ Hvis Hcall Hvis1) as [-> Hnr].
        eapply (IH _ _ Hrun); eauto. intros _. exists (live st1). set_solver.
      * assert (n ∈ ns) as Hns.
        { destruct Hn as [Hn|[->|Hn]%elem_of_cons]; [done| |done]. set_solver. }
        destruct b; eapply (IH _ _ Hrun); eauto; done.
Qed.

End SelfLoop.

End CyclesFacts.

(** ** [dagTopologicalSortDFS] *)

Section TopologicalSortFacts.
Context {Node NodeID : Type} `{Countable NodeID}.
Variable graph : Graph Node.
Variable identity : NodeIdentitySupplier Node NodeID.
Variable compare : NodeComparator Node.
Import TopologicalSort.

Local Abbreviation St := (@State Node NodeID _ _).
Local Abbreviation dfs := (dagDFS graph identity compare).
Local Abbreviation loop := (edgeLoop identity compare).
Local Abbreviation U := (targetIds graph identity).
Local Abbreviation idE := (idEdge graph identity).
Local Abbreviation ids := (fmap (M:=list) identity).
Local Abbreviation pushes := (pushes graph identity).
Local Abbreviation topoReturnWithin := (topoReturnWithin graph identity).
Local Abbreviation topoOrdered := (topoOrdered graph identity).
Local Abbreviation ordersSpec := (ordersSpec graph identity).

Lemma edgeLoop_pushes rec node es (st st' : St) :
  pushes rec →
  (∀ e, e ∈ es → e ∈ edges graph) →
  loop rec node es st = Some st' →
  ∃ new,
    stack st' = stack st ++ new ++ [node] ∧
    NoDup (ids new) ∧
    (∀ x, x ∈ visited st' ↔ x ∈ visited st ∨ x ∈ ids new) ∧
    (∀ x, x ∈ ids new → x ∉ visited st) ∧
    (∀ m, m ∈ new → ∃ e, e ∈ edges graph ∧ m = to e).
Proof.
  intros Hrec. revert st.
  induction es as [|e es IH]; intros st Hes Hrun; cbn [edgeLoop] in Hrun.
  - simplify_eq. exists []. cbn [visited stack fmap list_fmap].
    split_and!; [done | constructor | set_solver..].
  - assert (∀ e', e' ∈ es → e' ∈ edges graph) as Hes'
      by (intros; apply Hes; by right).
    case_decide; [|by apply IH]. case_decide as Hvis; [by apply IH|].
    destruct (rec (to e) st) as [st1|] eqn:Hcall; [|done].
    destruct (Hrec _ _ _ Hvis Hcall) as (new1 & Hs1 & Hnd1 & Hv1 & Hf1 & Hm1).
    destruct (IH st1 Hes' Hrun) as (new2 & Hs2 & Hnd2 & Hv2 & Hf2 & Hm2).
    exists ((new1 ++ [to e]) ++ new2). split_and!.
    + rewrite Hs2, Hs1. by rewrite <- !app_assoc.
    + rewrite fmap_app. apply NoDup_app. split_and!; [done| |done].
      intros x Hx1 Hx2. apply (Hf2 x Hx2). apply Hv1. by right.
    + intros x. rewrite fmap_app, elem_of_app, Hv2, Hv1. tauto.
    + intros x. rewrite fmap_app, elem_of_app. intros [Hx|Hx]; [by apply Hf1|].
      intros Hxv. apply (Hf2 x Hx). apply Hv1. by left.
    + intros m [[Hm|Hm%list_elem_of_singleton]%elem_of_app|Hm]%elem_of_app;
        [by apply Hm1 | | by apply Hm2].
      exists e. split; [apply Hes; by left | done].
Qed.

Lemma dagDFS_pushes fuel : pushes (dfs fuel).
Proof.
  induction fuel as [|fuel IH]; intros node st st' Hvis Hrun; [done|].
  cbn [dagDFS] in Hrun.
  apply (edgeLoop_pushes _ _ _ _ _ IH) in Hrun; [|done].
  cbn [visited stack] in Hrun.
  destruct Hrun as (new & Hs & Hnd & Hv & Hf & Hm).
  exists new. split_and!; [done| | | |done].
  - rewrite fmap_app. apply NoDup_app. split_and!; [done| |].
    + intros x Hx ->%list_elem_of_singleton. apply (Hf _ Hx). set_solver.
    + apply NoDup_singleton.
  - intros x. rewrite Hv, fmap_app, elem_of_app.
    cbn [fmap list_fmap]. rewrite list_elem_of_singleton. set_solver.
  - intros x. rewrite fmap_app, elem_of_app. cbn [fmap list_fmap].
    rewrite list_elem_of_singleton. intros [Hx| ->]; [|done].
    specialize (Hf _ Hx). set_solver.
Qed.

(** *** The recursion budget suffices *)

Lemma topo_edgeLoop_returns rec n node es (st : St) :
  topoReturnWithin rec n → pushes rec →
  (∀ e, e ∈ es → e ∈ edges graph) →
  size (U ∖ visited st) ≤ n →
  ∃ st', loop rec node es st = Some st'.
Proof.
  intros Hrec Hpush. revert st.
  induction es as [|e es IH]; intros st Hes Hsz; cbn [edgeLoop]; [eauto|].
  assert (∀ e', e' ∈ es → e' ∈ edges graph) as Hes'
    by (intros; apply Hes; by right).
  case_decide; [|by apply IH]. case_decide as Hvis; [by apply IH|].
  destruct (Hrec (to e) st) as (st1 & Hcall);
    [apply elem_of_targetIds, Hes; by left | done..|].
  rewrite Hcall. destruct (Hpush _ _ _ Hvis Hcall) as (new & _ & _ & Hv & _).
  apply IH; [done|].
  etrans; [apply size_unvisited_mono|done]. intros x Hx. apply Hv. by left.
Qed.

Lemma topo_dagDFS_returns fuel node (st : St) :
  size (U ∖ ({[identity node]} ∪ visited st)) < fuel →
  ∃ st', dfs fuel node st = Some st'.
Proof.
  revert node st. induction fuel as [|fuel IH]; intros node st Hsz; [lia|].
  cbn [dagDFS].
  apply (topo_edgeLoop_returns (dfs fuel) fuel);
    [|apply dagDFS_pushes|done|cbn [visited]; lia].
  intros nb st2 HU Hnb Hsz2. apply IH.
  pose proof (size_unvisited_lt U (visited st2) _ HU Hnb). lia.
Qed.

Lemma topo_rootLoop_returns ns (st : St) :
  ∃ st', rootLoop graph identity compare (S (length (edges graph))) ns st
         = Some st'.
Proof.
  revert st. induction ns as [|node ns IH]; intros st; cbn [rootLoop];
    [eauto|].
  case_decide; [done|].
  destruct (topo_dagDFS_returns (S (length (edges graph))) node st)
    as (st1 & ->); [|done].
  pose proof (targetIds_size graph identity).
  assert (size (U ∖ ({[identity node]} ∪ visited st)) ≤ size U)
    by (apply subseteq_size; set_solver).
  lia.
Qed.

(** *** The result lists every visited identity once *)

Lemma rootLoop_pushes fuel ns (st st' : St) :
  rootLoop graph identity compare fuel ns st = Some st' →
  NoDup (ids (stack st)) →
  (∀ x, x ∈ visited st ↔ x ∈ ids (stack st)) →
  NoDup (ids (stack st')) ∧
  (∀ x, x ∈ visited st' ↔ x ∈ ids (stack st')) ∧
  (∀ n, n ∈ ns → identity n ∈ visited st') ∧
  visited st ⊆ visited st' ∧
  (∀ m, m ∈ stack st' →
        m ∈ stack st ∨ m ∈ ns ∨ ∃ e, e ∈ edges graph ∧ m = to e).
Proof.
  revert st. induction ns as [|node ns IH]; intros st Hrun Hnd Hv;
    cbn [rootLoop] in Hrun.
  - simplify_eq. split_and!; [done..|set_solver|done|tauto].
  - case_decide as Hvis.
    { destruct (IH _ Hrun Hnd Hv) as (? & ? & Hns & Hsub & Hm).
      split_and!; [done..| |done|].
      - intros n [->|Hn]%elem_of_cons; [set_solver | by apply Hns].
      - intros m Hin. destruct (Hm m Hin) as [?|[?|?]]; [tauto| |tauto].
        right. left. by right. }
    destruct (dfs fuel node st) as [st1|] eqn:Hcall; [|done].
    destruct (dagDFS_pushes _ _ _ _ Hvis Hcall)
      as (new & Hs1 & Hnd1 & Hv1 & Hf1 & Hm1).
    destruct (IH _ Hrun) as (? & ? & Hns & Hsub & Hm).
    + rewrite Hs1, fmap_app. apply NoDup_app.
      split_and!; [done| |done].
      intros x Hx Hx'. apply (Hf1 x Hx'). by apply Hv.
    + intros x. rewrite Hv1, Hs1, (fmap_app _ (stack st)), elem_of_app, Hv.
      tauto.
    + assert (identity node ∈ visited st1) as Hnode.
      { apply Hv1. right. rewrite fmap_app. set_solver. }
      split_and!; [done..| | |].
      * intros n [->|Hn]%elem_of_cons; [set_solver | by apply Hns].
      * etrans; [|done]. intros x Hx. apply Hv1. by left.
      * intros m Hin. destruct (Hm m Hin) as [Hm'|[?|?]]; [| |tauto].
        -- rewrite Hs1 in Hm'.
           apply elem_of_app in Hm' as [?|Hm']; [tauto|].
           apply elem_of_app in Hm' as [?|Hm'];
             [|apply list_elem_of_singleton in Hm' as ->].
           ++ right. right. by apply Hm1.
           ++ right. left. by left.
        -- right. left. by right.
Qed.

(** *** The result is ordered along the edges of an acyclic graph *)

Lemma elem_of_ids_rev x (l : list Node) : x ∈ ids (rev l) ↔ x ∈ ids l.
Proof.
  induction l as [|a l IH]; [done|]. cbn [rev].
  rewrite fmap_app, elem_of_app, IH. set_solver.
Qed.

Lemma elem_of_rev (x : Node) (l : list Node) : x ∈ rev l ↔ x ∈ l.
Proof. by rewrite !list_elem_of_In, <- in_rev. Qed.

Lemma topoOrdered_app_r l1 l2 : topoOrdered (l1 ++ l2) → topoOrdered l2.
Proof. induction l1 as [|u l1 IH]; [done|]. intros [_ ?]. by apply IH. Qed.

Section Acyclic.
Hypothesis compare_zero :
  ∀ a b, compare a b = 0%Z ↔ identity a = identity b.
Hypothesis no_cycle : ∀ x, ¬ tc idE x x.

Lemma edgeLoop_orders rec node es (st st' : St) (G : gset NodeID) :
  ordersSpec rec →
  (∀ e, e ∈ es → e ∈ edges graph) →
  (∀ x, x ∈ visited st → x ∈ G ∨ x ∈ ids (stack st)) →
  (∀ g, g ∈ G → rtc idE g (identity node)) →
  topoOrdered (rev (stack st)) →
  (∀ e, e ∈ edges graph → identity (from e) = identity node →
        e ∈ es ∨ identity (to e) ∈ ids (stack st)) →
  loop rec node es st = Some st' →
  (∃ new, stack st' = stack st ++ new ++ [node]) ∧
  (∀ x, x ∈ visited st' → x ∈ G ∨ x ∈ ids (stack st')) ∧
  topoOrdered (rev (stack st')).
Proof.
  intros Hrec. revert st.
  induction es as [|e es IH]; intros st Hes Hv Hreach Hord Hdone Hrun;
    cbn [edgeLoop] in Hrun.
  - simplify_eq. cbn [visited stack]. split_and!.
    + by exists [].
    + intros x Hx. destruct (Hv x Hx); [by left|right].
      rewrite fmap_app. set_solver.
    + rewrite rev_unit. split; [|done]. intros e He Hfrom.
      destruct (Hdone e He Hfrom) as [Hnil|Hin]; [by apply elem_of_nil in Hnil|].
      by apply elem_of_ids_rev.
  - assert (∀ e', e' ∈ es → e' ∈ edges graph) as Hes'
      by (intros; apply Hes; by right).
    assert (e ∈ edges graph) as Hin by (apply Hes; by left).
    destruct (decide (compare (from e) node = 0%Z)) as [Hcmp|Hcmp].
    + apply compare_zero in Hcmp.
      assert (idE (identity node) (identity (to e))) as Hstep by (by exists e).
      destruct (decide (identity (to e) ∈ visited st)) as [Hvis|Hvis].
      * apply (IH st); [done..| |done].
        intros e' He' Hfrom.
        destruct (Hdone e' He' Hfrom) as [[->|?]%elem_of_cons|?]; [|tauto..].
        right. destruct (Hv _ Hvis) as [HG|?]; [|done].
        exfalso. apply (no_cycle (identity node)).
        eapply tc_rtc_r; [by apply tc_once | by apply Hreach].
      * destruct (rec (to e) st) as [st1|] eqn:Hcall; [|done].
        destruct (Hrec (to e) st st1 G Hvis Hv)
          as ((new1 & Hs1) & Hv1 & Hord1); [|done..|].
        { intros g Hg. eapply rtc_r; [by apply Hreach | done]. }
        assert (∀ x, x ∈ ids (stack st) → x ∈ ids (stack st1)) as Hmono
          by (intros x Hx; rewrite Hs1, fmap_app; set_solver).
        destruct (IH st1) as ((new2 & Hs2) & Hv2 & Hord2); [done..| |done|].
        { intros e' He' Hfrom.
          destruct (Hdone e' He' Hfrom) as [[->|?]%elem_of_cons|?];
            [|tauto|by right; apply Hmono].
          right. rewrite Hs1, !fmap_app. set_solver. }
        split_and!; [|done..]. exists (new1 ++ [to e] ++ new2).
        rewrite Hs2, Hs1. by rewrite <- !app_assoc.
    + apply (IH st); [done..| |done].
      intros e' He' Hfrom.
      destruct (Hdone e' He' Hfrom) as [[->|?]%elem_of_cons|?]; [|tauto..].
      by apply compare_zero in Hfrom.
Qed.

Lemma dagDFS_orders fuel : ordersSpec (dfs fuel).
Proof.
  induction fuel as [|fuel IH];
    intros node st st' G Hvis Hv Hreach Hord Hrun; [done|].
  cbn [dagDFS] in Hrun.
  apply (edgeLoop_orders _ _ _ _ _ ({[identity node]} ∪ G) IH) in Hrun;
    cbn [visited stack] in *; [|done| | |done|tauto].
  - destruct Hrun as ((new & Hs) & Hv' & Hord'). split_and!; [eauto| |done].
    intros x Hx. destruct (Hv' x Hx) as [[->%elem_of_singleton|?]%elem_of_union|?];
      [|tauto..].
    right. rewrite Hs, !fmap_app. set_solver.
  - intros x [->%elem_of_singleton|Hx]%elem_of_union; [set_solver|].
    destruct (Hv x Hx); set_solver.
  - intros g [->%elem_of_singleton|Hg]%elem_of_union; [done | by apply Hreach].
Qed.

Lemma rootLoop_orders fuel ns (st st' : St) :
  (∀ x, x ∈ visited st → x ∈ ids (stack st)) →
  topoOrdered (rev (stack st)) →
  rootLoop graph identity compare fuel ns st = Some st' →
  topoOrdered (rev (stack st')).
Proof.
  revert st. induction ns as [|node ns IH]; intros st Hv Hord Hrun;
    cbn [rootLoop] in Hrun.
  - by simplify_eq.
  - case_decide as Hvis; [by eapply IH|].
    destruct (dfs fuel node st) as [st1|] eqn:Hcall; [|done].
    destruct (dagDFS_orders fuel node st st1 ∅) as (_ & Hv1 & Hord1);
      [done | by right; apply Hv | set_solver | done..|].
    apply (IH st1); [|done..]. intros x Hx. destruct (Hv1 x Hx); set_solver.
Qed.

End Acyclic.

End TopologicalSortFacts.

(** ** [dagDependencies] *)

Section DepsFacts.
Context {Node NodeID : Type} `{Countable NodeID}.
Variable graph : Graph Node.
Variable identity : NodeIdentitySupplier Node NodeID.
Variable compare : NodeComparator Node.
Import Deps.

Local Abbreviation St := (@State Node NodeID _ _).
Local Abbreviation ids := (fmap (M:=list) identity).

(** *** The index *)

Lemma indexLoop_None rest i (m : gmap NodeID nat) k :
  indexLoop identity rest i m !! k = None ↔ m !! k = None ∧ k ∉ ids rest.
Proof.
  revert i m. induction rest as [|node rest IH]; intros i m; cbn [indexLoop].
  - split; [intros ?; split; [done|apply not_elem_of_nil] | tauto].
  - rewrite IH, lookup_insert_None, fmap_cons, not_elem_of_cons. naive_solver.
Qed.

Lemma indexLoop_Some rest i (m : gmap NodeID nat) k j :
  indexLoop identity rest i m !! k = Some j →
  m !! k = Some j ∨
  ∃ node, rest !! (j - i)%nat = Some node ∧ i ≤ j ∧ identity node = k.
Proof.
  revert i m. induction rest as [|node rest IH]; intros i m; cbn [indexLoop];
    [tauto|].
  intros [Hm|(node' & Hn & Hle & Hid)]%IH.
  - apply lookup_insert_Some in Hm as [[<- <-]|[_ Hm]]; [|tauto].
    right. exists node. by rewrite Nat.sub_diag.
  - right. exists node'. split_and!; [|lia|done].
    by replace (j - i)%nat with (S (j - S i)) by lia.
Qed.

(** *** The two traversals of the sort *)

Lemma beforeLoop_spec topo k (st : St) :
  k ≤ length topo →
  ∃ st', beforeLoop identity topo k st = Some st' ∧
         (∀ x, x ∈ visited st' ↔ x ∈ visited st ∨ x ∈ ids (take k topo)) ∧
         dependencies (result st')
         = dependencies (result st) ++ rev (take k topo) ∧
         dependents (result st') = dependents (result st).
Proof.
  revert st. induction k as [|i IH]; intros st Hk; cbn [beforeLoop].
  - exists st. rewrite take_0, app_nil_r. set_solver.
  - destruct (lookup_lt_is_Some_2 topo i) as [node Hnode]; [lia|].
    rewrite Hnode.
    destruct (IH (pushDependency node (visit (identity node) st)))
      as (st' & -> & Hv & Hd & Ht); [lia|].
    exists st'. rewrite (take_S_r _ _ _ Hnode), rev_unit.
    cbn [visited result pushDependency visit dependencies dependents] in *.
    split_and!; [done| |by rewrite Hd, <- app_assoc|done].
    intros x. rewrite Hv, fmap_app. set_solver.
Qed.

Lemma afterLoop_spec topo count i (st : St) :
  i + count ≤ length topo →
  ∃ st', afterLoop identity topo count i st = Some st' ∧
         (∀ x, x ∈ visited st' ↔
               x ∈ visited st ∨ x ∈ ids (take count (drop i topo))) ∧
         dependencies (result st') = dependencies (result st) ∧
         dependents (result st')
         = dependents (result st) ++ take count (drop i topo).
Proof.
  revert i st. induction count as [|count IH]; intros i st Hk;
    cbn [afterLoop].
  - exists st. rewrite take_0, app_nil_r. set_solver.
  - destruct (lookup_lt_is_Some_2 topo i) as [node Hnode]; [lia|].
    rewrite Hnode.
    destruct (IH (S i) (pushDependent node (visit (identity node) st)))
      as (st' & -> & Hv & Hd & Ht); [lia|].
    exists st'. rewrite (drop_S _ _ _ Hnode). cbn [take].
    cbn [visited result pushDependent visit dependencies dependents] in *.
    split_and!; [done| |done|by rewrite Ht, <- app_assoc].
    intros x. rewrite Hv. set_solver.
Qed.

(** *** The nodes left over *)

Lemma remainingLoop_spec targetNode ns (st : St) :
  remainingLoop identity compare targetNode ns st
  = mkState (visited st)
      (mkDependencies
         (dependencies (result st)
          ++ filter (λ n, (identity n ∉ visited st) ∧
                          (compare n targetNode < 0)%Z) ns)
         (dependents (result st)
          ++ filter (λ n, (identity n ∉ visited st) ∧
                          (compare n targetNode > 0)%Z) ns)).
Proof.
  revert st. induction ns as [|node ns IH]; intros st; cbn [remainingLoop].
  - rewrite !filter_nil, !app_nil_r. by destruct st as [v []].
  - rewrite !filter_cons.
    destruct (decide (identity node ∈ visited st)) as [Hvis|Hvis].
    { rewrite !decide_False by tauto. apply IH. }
    destruct (decide (compare node targetNode < 0)%Z) as [Hlt|Hlt].
    { rewrite decide_True by done. rewrite decide_False by lia.
      rewrite IH. cbn [visited result pushDependency dependencies dependents].
      by rewrite <- app_assoc. }
    destruct (decide (compare node targetNode > 0)%Z) as [Hgt|Hgt].
    { rewrite decide_False by tauto. rewrite decide_True by done.
      rewrite IH. cbn [visited result pushDependent dependencies dependents].
      by rewrite <- app_assoc. }
    rewrite !decide_False by tauto. apply IH.
Qed.

(** *** The whole function *)

Variable topologicalSortSupplier :
  Graph Node → NodeIdentitySupplier Node NodeID → NodeComparator Node →
  option (list Node).
Variable topologicalSort : list Node.
Hypothesis supplier_returns :
  topologicalSortSupplier graph identity compare = Some topologicalSort.

Local Abbreviation nodeIndex := (indexLoop identity topologicalSort 0%nat ∅).
Local Abbreviation dagDeps :=
  (dagDependencies graph identity compare topologicalSortSupplier).

(** The target is not in the index: the comparator alone classifies. *)
Lemma dagDependencies_absent targetNode :
  nodeIndex !! identity targetNode = None →
  dagDeps targetNode
  = Some (mkDependencies
            (filter (λ n, (compare n targetNode < 0)%Z) (nodes graph))
            (filter (λ n, (compare n targetNode > 0)%Z) (nodes graph))).
Proof.
  intros Hidx. unfold dagDependencies.
  rewrite supplier_returns. cbn zeta. rewrite Hidx, remainingLoop_spec.
  cbn [visited result dependencies dependents app].
  do 2 f_equal; apply list_filter_iff; intros n; set_solver.
Qed.

(** The target is in the index: the sort is cut at its position. *)
Lemma dagDependencies_present targetNode targetIndex :
  nodeIndex !! identity targetNode = Some targetIndex →
  ∃ target',
    topologicalSort !! targetIndex = Some target' ∧
    identity target' = identity targetNode ∧
    dagDeps targetNode
    = Some (mkDependencies
              (rev (take targetIndex topologicalSort)
               ++ filter (λ n, (identity n
                                ∉ ids (take targetIndex topologicalSort
                                       ++ drop (S targetIndex) topologicalSort))
                               ∧ (compare n targetNode < 0)%Z) (nodes graph))
              (drop (S targetIndex) topologicalSort
               ++ filter (λ n, (identity n
                                ∉ ids (take targetIndex topologicalSort
                                       ++ drop (S targetIndex) topologicalSort))
                               ∧ (compare n targetNode > 0)%Z) (nodes graph))).
Proof.
  intros Hidx.
  destruct (indexLoop_Some _ _ _ _ _ Hidx) as [Hempty|(t & Ht & _ & Hid)];
    [by rewrite lookup_empty in Hempty|].
  rewrite Nat.sub_0_r in Ht. exists t. split_and!; [done..|].
  pose proof (lookup_lt_Some _ _ _ Ht) as Hlt.
  unfold dagDependencies. rewrite supplier_returns. cbn zeta. rewrite Hidx.
  destruct (beforeLoop_spec topologicalSort targetIndex
              (mkState ∅ (mkDependencies [] [])))
    as (st1 & -> & Hv1 & Hd1 & Ht1); [lia|].
  destruct (afterLoop_spec topologicalSort
              (length topologicalSort - (targetIndex + 1)) (targetIndex + 1)
              st1) as (st2 & -> & Hv2 & Hd2 & Ht2); [lia|].
  rewrite take_ge in Hv2, Ht2 by (rewrite length_drop; lia).
  rewrite Nat.add_1_r in Hv2, Ht2.
  rewrite remainingLoop_spec. rewrite Hd2, Hd1, Ht2, Ht1.
  cbn [visited result dependencies dependents app].
  do 3 f_equal; apply list_filter_iff; intros n;
    rewrite Hv2, Hv1, fmap_app, elem_of_app; cbn [visited]; set_solver.
Qed.

(** *** Partition, for a sort that lists every node's identity once *)

Hypothesis compare_zero :
  ∀ a b, compare a b = 0%Z ↔ identity a = identity b.
Hypothesis identity_inj : ∀ a b, identity a = identity b → a = b.
Hypothesis sort_NoDup : NoDup (ids topologicalSort).
Hypothesis sort_covers :
  ∀ n, n ∈ nodes graph → identity n ∈ ids topologicalSort.

Lemma dagDependencies_sorted_partition targetNode :
  ∃ r, dagDeps targetNode = Some r ∧
       ∀ n, n ∈ nodes graph →
            (n ≠ targetNode →
             n ∈ dependencies r ∧ n ∉ dependents r ∨
             n ∉ dependencies r ∧ n ∈ dependents r) ∧
            (compare n targetNode = 0%Z →
             n ∉ dependencies r ∧ n ∉ dependents r).
Proof.
  destruct (nodeIndex !! identity targetNode) as [j|] eqn:Hidx.
  - destruct (dagDependencies_present _ _ Hidx) as (t & Ht & Hid & ->).
    apply identity_inj in Hid as ->.
    eexists. split; [done|]. cbn [dependencies dependents].
    pose proof (take_drop_middle _ _ _ Ht) as Hsplit.
    pose proof (NoDup_fmap_1 _ _ sort_NoDup) as Hnd.
    rewrite <- Hsplit in Hnd. apply NoDup_app in Hnd as (_ & Hdisj & Hnd2).
    apply NoDup_cons in Hnd2 as [Htail _].
    set (before := take j topologicalSort) in *.
    set (after := drop (S j) topologicalSort) in *.
    assert (∀ n, n ∈ nodes graph → identity n ∉ ids (before ++ after) →
                 compare n targetNode = 0%Z) as Hleft.
    { intros n Hn Hnot. apply compare_zero.
      pose proof (sort_covers n Hn) as Hin. rewrite <- Hsplit in Hin.
      rewrite fmap_app, fmap_cons in Hin. rewrite fmap_app in Hnot.
      set_solver. }
    intros n Hn.
    assert (n ∈ rev before ++ filter (λ n, (identity n ∉ ids (before ++ after))
                                ∧ (compare n targetNode < 0)%Z) (nodes graph)
            ↔ n ∈ before) as ->.
    { rewrite elem_of_app, elem_of_rev, list_elem_of_filter. split; [|tauto].
      intros [?|[[Hnot Hc] Hn']]; [done|]. apply Hleft in Hnot; [lia|done]. }
    assert (n ∈ after ++ filter (λ n, (identity n ∉ ids (before ++ after))
                                ∧ (compare n targetNode > 0)%Z) (nodes graph)
            ↔ n ∈ after) as ->.
    { rewrite elem_of_app, list_elem_of_filter. split; [|tauto].
      intros [?|[[Hnot Hc] Hn']]; [done|]. apply Hleft in Hnot; [lia|done]. }
    split.
    + intros Hne.
      assert (n ∈ topologicalSort) as Hin.
      { pose proof (sort_covers n Hn) as Hin.
        apply list_elem_of_fmap in Hin as (m & Hm & Hin).
        by apply identity_inj in Hm as ->. }
      rewrite <- Hsplit in Hin.
      apply elem_of_app in Hin as [Hin|[->|Hin]%elem_of_cons]; [|done|].
      * left. split; [done|]. intros Hin'. apply (Hdisj n Hin). by right.
      * right. split; [|done]. intros Hin'. apply (Hdisj n Hin'). by right.
    + intros Hc. apply compare_zero, identity_inj in Hc as ->. split; [|done].
      intros Hin. apply (Hdisj _ Hin). by left.
  - rewrite (dagDependencies_absent _ Hidx). eexists. split; [done|].
    cbn [dependencies dependents]. intros n Hn.
    rewrite !list_elem_of_filter. split.
    + intros Hne.
      assert (compare n targetNode ≠ 0%Z)
        by (intros Hc; by apply compare_zero, identity_inj in Hc).
      destruct (decide (compare n targetNode < 0)%Z); [left|right];
        intuition lia.
    + intros Hc. intuition lia.
Qed.

End DepsFacts.

(** ** The sort as a whole *)

Section TopologicalSortResult.
Context {Node NodeID : Type} `{Countable NodeID}.
Variable graph : Graph Node.
Variable identity : NodeIdentitySupplier Node NodeID.
Variable compare : NodeComparator Node.

Local Abbreviation ids := (fmap (M:=list) identity).
Local Abbreviation idE := (idEdge graph identity).

Lemma dagTopologicalSortDFS_visits :
  ∃ out,
    TopologicalSort.dagTopologicalSortDFS graph identity compare = Some out ∧
    NoDup (ids out) ∧
    (∀ n, n ∈ nodes graph → identity n ∈ ids out) ∧
    (∀ m, m ∈ out → m ∈ nodes graph ∨ ∃ e, e ∈ edges graph ∧ m = to e) ∧
    ((∀ a b, compare a b = 0%Z ↔ identity a = identity b) →
     (∀ x, ¬ tc idE x x) → topoOrdered graph identity out).
Proof.
  unfold TopologicalSort.dagTopologicalSortDFS.
  destruct (topo_rootLoop_returns graph identity compare (nodes graph)
              (TopologicalSort.mkState ∅ [])) as (st & Hrun).
  rewrite Hrun. exists (rev (TopologicalSort.stack st)).
  destruct (rootLoop_pushes _ _ _ _ _ _ _ Hrun)
    as (Hnd & Hv & Hns & _ & Hm); [constructor | set_solver |].
  split_and!; [done| | | |].
  - by rewrite <- (Permutation_rev (TopologicalSort.stack st)).
  - intros n Hn. apply elem_of_ids_rev, Hv. by apply Hns.
  - intros m Hin. rewrite elem_of_rev in Hin.
    destruct (Hm m Hin) as [Hnil|?]; [|done]. by apply elem_of_nil in Hnil.
  - intros Hcmp Hnc.
    eapply (rootLoop_orders graph identity compare Hcmp Hnc);
      [| |exact Hrun]; [set_solver|exact I].
Qed.

Lemma topoOrdered_appearsBefore out e :
  (∀ a b, identity a = identity b → a = b) →
  topoOrdered graph identity out →
  e ∈ edges graph → from e ∈ out → appearsBefore (from e) (to e) out.
Proof.
  intros Hinj Hord He Hin.
  apply list_elem_of_split in Hin as (l1 & l2 & ->).
  apply topoOrdered_app_r in Hord as [Hto _].
  specialize (Hto e He eq_refl).
  apply list_elem_of_fmap in Hto as (m & Hm%Hinj & Hin). subst m.
  apply list_elem_of_split in Hin as (l3 & l4 & ->).
  by exists l1, l3, l4.
Qed.

Lemma NoDup_fmap_eq {A B : Type} (f : A → B) (l : list A) x y :
  NoDup (f <$> l) → x ∈ l → y ∈ l → f x = f y → x = y.
Proof.
  induction l as [|a l IH]; intros Hnd Hx Hy Hf; [by apply elem_of_nil in Hx|].
  rewrite fmap_cons in Hnd. apply NoDup_cons in Hnd as [Ha Hnd].
  apply elem_of_cons in Hx as [->|Hx]; apply elem_of_cons in Hy as [->|Hy];
    [done| | |by apply IH].
  - exfalso. apply Ha. rewrite Hf. by apply list_elem_of_fmap_2.
  - exfalso. apply Ha. rewrite <- Hf. by apply list_elem_of_fmap_2.
Qed.

End TopologicalSortResult.

(** ** [graphPlantUmlDiagram] *)

Section PlantUmlFacts.
Context {Node : Type}.
Variable nodeOption : Node → PumlNode.t.
Variable edgeOption : Edge Node → PumlEdge.t.

Lemma nodeLinesLoop_map ns nodeLines :
  nodeLinesLoop nodeOption ns nodeLines
  = nodeLines ++ map (nodeLine nodeOption) ns.
Proof.
  revert nodeLines. induction ns as [|node ns IH]; intros nodeLines;
    cbn [nodeLinesLoop map]; [by rewrite app_nil_r|].
  by rewrite IH, <- app_assoc.
Qed.

Lemma edgeLinesLoop_map es edgeLines :
  edgeLinesLoop edgeOption es edgeLines
  = edgeLines ++ map (edgeLine edgeOption) es.
Proof.
  revert edgeLines. induction es as [|edge es IH]; intros edgeLines;
    cbn [edgeLinesLoop map]; [by rewrite app_nil_r|].
  by rewrite IH, <- app_assoc.
Qed.

End PlantUmlFacts.

(** ** Concrete graphs over [nat] *)

Lemma natIdentity_inj a b : natIdentity a = natIdentity b → a = b.
Proof. done. Qed.

Lemma natCompare_zero a b :
  natCompare a b = 0%Z ↔ natIdentity a = natIdentity b.
Proof. unfold natCompare, natIdentity. lia. Qed.

Lemma triangle_endpoints : endpointsInNodes triangle.
Proof. intros e He. cbn in *. set_solver. Qed.

Lemma diamond_endpoints : endpointsInNodes diamond.
Proof. intros e He. cbn in *. set_solver. Qed.

Lemma triangle_hasCycle : hasCycle triangle.
Proof.
  exists 0.
  apply (tc_l _ 0 1 0); [exists (mkEdge 0 1); cbn; set_solver|].
  apply (tc_l _ 1 2 0); [exists (mkEdge 1 2); cbn; set_solver|].
  apply tc_once. exists (mkEdge 2 0); cbn; set_solver.
Qed.

(** The diamond's edges all go from a smaller to a larger number. *)
Lemma diamond_acyclic : acyclic diamond.
Proof.
  assert (∀ a b, tc (nodeEdge diamond) a b → a < b) as Hlt.
  { induction 1 as [a b (e & He & <- & <-)|a b c (e & He & <- & <-) _ IH].
    - cbn in He. set_solver by lia.
    - cbn in He. etrans; [|exact IH]. set_solver by lia. }
  intros n Hn%Hlt. lia.
Qed.

(** The facade run on the examples of the specification: the diamond is
    sorted with 0 first and 3 last, all of its other nodes are dependencies
    of 3, and the triangle is one cycle back to the root of its search. *)
Example diamond_topologicalSort :
  topologicalSort natIdentity natCompare diamond = Some [0; 1; 2; 3].
Proof. by vm_compute. Qed.

Example diamond_deps :
  deps natIdentity natCompare diamond 3
  = Some (mkDependencies [2; 1; 0] []).
Proof. by vm_compute. Qed.

Example triangle_isCyclical :
  isCyclical natIdentity natCompare triangle = Some true.
Proof. by vm_compute. Qed.

Example triangle_cycles :
  cycles natIdentity natCompare triangle
  = Some [mkCycle [0; 1; 2] [mkEdge 0 1; mkEdge 1 2; mkEdge 2 0]].
Proof. by vm_compute. Qed.

(** ** The searches of the outer loop of [dagCyclesDFS] *)

Section CycleRunsFacts.
Context {Node NodeID : Type} `{Countable NodeID}.
Variable graph : Graph Node.
Variable identity : NodeIdentitySupplier Node NodeID.
Variable compare : NodeComparator Node.

Local Abbreviation StC := (@Cycles.State Node NodeID _ _).
Local Abbreviation RunC := (@Run Node NodeID _ _).
Local Abbreviation dfsC := (Cycles.dagDFS graph identity compare).
Local Abbreviation detects := (detects graph identity compare).
Local Abbreviation stoppedAtDetection :=
  (stoppedAtDetection graph identity compare).

Lemma edgeLoop_detects rec node es0 (st st' : StC) :
  detects rec → extends rec → marks identity rec →
  cyclesKeepStack identity rec →
  (∀ e, e ∈ es0 → e ∈ edges graph) →
  (∃ pre, cycleNodes (Cycles.live st) = pre ++ [node]) →
  identity node ∈ Cycles.visited st →
  identity node ∈ Cycles.recursionStack st →
  Cycles.edgeLoop identity compare rec node es0 st = Some (true, st') →
  stoppedAtDetection st'.
Proof.
  intros Hrec Hext Hmarks Hkeep. revert st.
  induction es0 as [|e es0 IH]; intros st Hes Hlast Hvis Hstk Hrun;
    cbn [Cycles.edgeLoop] in Hrun; [done|].
  assert (∀ e', e' ∈ es0 → e' ∈ edges graph) as Hes'
    by (intros; apply Hes; by right).
  assert (e ∈ edges graph) as Hin by (apply Hes; by left).
  destruct (decide (compare (from e) node = 0%Z)) as [Hcmp|];
    [|by apply (IH st)].
  destruct (Cycles.exploreEdge identity rec e st) as [[[] st1]|] eqn:Hstep;
    [| |done].
  - simplify_eq. unfold Cycles.exploreEdge in Hstep.
    repeat case_decide; simplify_eq.
    + destruct Hlast as [pre Hpre].
      exists pre, node, (cycleEdges (Cycles.live st)), e.
      by cbn [Cycles.live Cycles.visited Cycles.recursionStack
                Cycles.pushEdge cycleNodes cycleEdges].
    + destruct (rec _ _) as [[[] st2]|] eqn:Hcall; simplify_eq.
      by apply Hrec in Hcall.
  - pose proof (exploreEdge_extends identity _ _ _ _ _ Hext Hstep) as Hlive.
    pose proof (exploreEdge_visited identity _ _ _ _ _ Hmarks Hstep) as Hsub.
    pose proof (exploreEdge_keepsStack identity _ _ _ _ Hkeep Hstep
                  _ Hvis Hstk) as Hstk1.
    apply (IH st1); [done| |set_solver|done..]. by rewrite Hlive.
Qed.

Lemma dagDFS_detects fuel : detects (dfsC fuel).
Proof.
  induction fuel as [|fuel IH]; intros node st st' Hrun; [done|].
  cbn [Cycles.dagDFS] in Hrun.
  apply (edgeLoop_detects _ _ _ _ _ IH (dagDFS_extends _ _ _ fuel)
           (dagDFS_marks _ _ _ fuel)
           (cycles_dagDFS_keepsStack _ _ _ fuel)) in Hrun; [done..| | |].
  - by exists (cycleNodes (Cycles.live st)).
  - cbn [Cycles.visited Cycles.pushNode]. set_solver.
  - cbn [Cycles.recursionStack Cycles.pushNode]. set_solver.
Qed.

Lemma rootLoop_runs ns (st : StC) cycleList :
  ∃ runs : list RunC,
    Cycles.rootLoop graph identity compare (S (length (edges graph))) ns st
      cycleList
    = Some (cycleList ++ recordsOf runs) ∧
    rootRuns graph identity compare (S (length (edges graph))) ns st runs ∧
    sublist (runRoot <$> runs) ns ∧
    Forall (λ run, runSignalled run = true →
                   headedBy (runRoot run) (Cycles.live (runAfter run)) ∧
                   stoppedAtDetection (runAfter run)) runs.
Proof.
  revert st cycleList.
  induction ns as [|node ns IH]; intros st cycleList;
    cbn [Cycles.rootLoop rootRuns].
  - exists []. cbn. rewrite app_nil_r. split_and!; [done..|constructor].
  - destruct (decide (identity node ∈ Cycles.visited st)).
    { destruct (IH st cycleList) as (runs & -> & Hruns & Hsub & Hall).
      exists runs. split_and!; [done..|by apply sublist_cons|done]. }
    destruct (cycles_dagDFS_root_returns graph identity compare node
                (freshArrays st)) as (b & st1 & Hcall).
    change (Cycles.mkState (Cycles.visited st) (Cycles.recursionStack st)
              (mkCycle [] [])) with (freshArrays st).
    rewrite Hcall.
    assert (b = true →
            headedBy node (Cycles.live st1) ∧ stoppedAtDetection st1)
      as Hsignal.
    { intros ->. split; [|by eapply dagDFS_detects].
      apply dagDFS_extends in Hcall as (ns' & _ & Hnodes & _).
      by exists ns'. }
    destruct b.
    + destruct (IH st1 (cycleList ++ [Cycles.live st1]))
        as (runs & -> & Hruns & Hsub & Hall).
      exists (mkRun node st true st1 :: runs).
      split; [|split; [|split]].
      * unfold recordsOf. rewrite filter_cons. cbn [runSignalled].
        rewrite decide_True by done. cbn [map runAfter].
        by rewrite <- app_assoc.
      * done.
      * by apply sublist_skip.
      * by constructor.
    + destruct (IH st1 cycleList) as (runs & -> & Hruns & Hsub & Hall).
      exists (mkRun node st false st1 :: runs).
      split; [|split; [|split]].
      * unfold recordsOf. rewrite filter_cons. cbn [runSignalled].
        by rewrite decide_False by done.
      * done.
      * by apply sublist_skip.
      * by constructor.
Qed.

Lemma recordsOf_length (runs : list RunC) :
  length (recordsOf runs) ≤ length runs.
Proof. unfold recordsOf. rewrite length_map. apply length_filter. Qed.

End CycleRunsFacts.

(** * The claims *)

(** Claim C1. On a graph whose edge endpoints all occur in its node list,
    with an injective identity function and a comparator that returns zero
    exactly for nodes of the same NodeID, [dagIsCyclicalDFS] returns
    [false] if the graph is acyclic and [true] if it contains a directed
    cycle. *)
Theorem dagIsCyclicalDFS_decides_cycles
    {Node NodeID : Type} `{Countable NodeID} (graph : Graph Node)
    (identity : NodeIdentitySupplier Node NodeID)
    (compare : NodeComparator Node) :
  endpointsInNodes graph →
  (∀ a b, identity a = identity b → a = b) →
  (∀ a b, compare a b = 0%Z ↔ identity a = identity b) →
  (acyclic graph →
   IsCyclical.dagIsCyclicalDFS graph identity compare = Some false) ∧
  (hasCycle graph →
   IsCyclical.dagIsCyclicalDFS graph identity compare = Some true).
Proof.
  intros Hends Hinj Hcmp. unfold IsCyclical.dagIsCyclicalDFS.
  destruct (rootLoop_returns graph identity compare (nodes graph)
              (IsCyclical.mkState ∅ ∅)) as [b Hrun].
  rewrite Hrun.
  apply (rootLoop_spec graph identity compare Hcmp) in Hrun;
    [|apply (Inv_empty graph identity)|done].
  split.
  - intros Hacyclic. destruct b; [|done].
    destruct Hrun as [x Hx].
    apply (tc_idEdge_nodeEdge graph identity _ _ Hinj) in Hx
      as (a & a' & <- & Heq & Hpath).
    apply Hinj in Heq as ->. by destruct (Hacyclic a).
  - intros [n Hn]. destruct b; [done|].
    destruct (tc_nodeEdge_from graph _ _ Hn) as (e & He & <-).
    destruct (Hrun (from e)); [by apply Hends|].
    by apply tc_nodeEdge_idEdge.
Qed.

Lemma dagIsCyclicalDFS_decides_cycles_witness :
  IsCyclical.dagIsCyclicalDFS diamond natIdentity natCompare = Some false ∧
  IsCyclical.dagIsCyclicalDFS triangle natIdentity natCompare = Some true.
Proof.
  split.
  - apply (dagIsCyclicalDFS_decides_cycles diamond natIdentity natCompare
             diamond_endpoints natIdentity_inj natCompare_zero).
    exact diamond_acyclic.
  - apply (dagIsCyclicalDFS_decides_cycles triangle natIdentity natCompare
             triangle_endpoints natIdentity_inj natCompare_zero).
    exact triangle_hasCycle.
Defined.

(** Claim C9. With a comparator that returns zero exactly for nodes of the
    same NodeID, [dagIsCyclicalDFS], whose outer loop searches from every
    node, returns the result of the search from every node not yet
    visited. *)
Theorem dagIsCyclicalDFS_from_unvisited
    {Node NodeID : Type} `{Countable NodeID} (graph : Graph Node)
    (identity : NodeIdentitySupplier Node NodeID)
    (compare : NodeComparator Node) :
  (∀ a b, compare a b = 0%Z ↔ identity a = identity b) →
  ∃ b, IsCyclical.dagIsCyclicalDFS graph identity compare = Some b ∧
       IsCyclical.isCyclicalFromUnvisited graph identity compare = Some b.
Proof.
  intros Hcmp.
  unfold IsCyclical.dagIsCyclicalDFS, IsCyclical.isCyclicalFromUnvisited.
  destruct (rootLoop_returns graph identity compare (nodes graph)
              (IsCyclical.mkState ∅ ∅)) as [b Hrun].
  exists b. split; [done|].
  by rewrite <- (rootLoop_rootLoopUnvisited graph identity compare Hcmp)
    by (apply (Inv_empty graph identity) || done).
Qed.

Lemma dagIsCyclicalDFS_from_unvisited_witness :
  ∃ b, IsCyclical.dagIsCyclicalDFS chain natIdentity natCompare = Some b ∧
       IsCyclical.isCyclicalFromUnvisited chain natIdentity natCompare
       = Some b.
Proof.
  exact (dagIsCyclicalDFS_from_unvisited chain natIdentity natCompare
           natCompare_zero).
Defined.

(** Claim C2. On an acyclic graph whose edge endpoints all occur in its
    node list, with an injective identity function and a comparator whose
    zero agrees with identity equality, [dagTopologicalSortDFS] returns a
    sequence in which every edge's [from] node appears strictly before its
    [to] node. *)
Theorem dagTopologicalSortDFS_orders_edges
    {Node NodeID : Type} `{Countable NodeID} (graph : Graph Node)
    (identity : NodeIdentitySupplier Node NodeID)
    (compare : NodeComparator Node) :
  acyclic graph →
  endpointsInNodes graph →
  (∀ a b, identity a = identity b → a = b) →
  (∀ a b, compare a b = 0%Z ↔ identity a = identity b) →
  ∃ out,
    TopologicalSort.dagTopologicalSortDFS graph identity compare = Some out ∧
    ∀ e, e ∈ edges graph → appearsBefore (from e) (to e) out.
Proof.
  intros Hacyclic Hends Hinj Hcmp.
  destruct (dagTopologicalSortDFS_visits graph identity compare)
    as (out & Hrun & _ & Hcover & _ & Hord).
  exists out. split; [done|]. intros e He.
  apply (topoOrdered_appearsBefore graph identity _ _ Hinj); [|done|].
  - apply Hord; [done|]. intros x Hx.
    apply (tc_idEdge_nodeEdge graph identity _ _ Hinj) in Hx
      as (a & a' & <- & Heq & Hpath).
    apply Hinj in Heq as ->. by destruct (Hacyclic a).
  - destruct (Hends e He) as [Hfrom _].
    apply Hcover, list_elem_of_fmap in Hfrom as (m & Hm & Hin).
    by apply Hinj in Hm as ->.
Qed.

Lemma dagTopologicalSortDFS_orders_edges_witness :
  ∃ out,
    TopologicalSort.dagTopologicalSortDFS diamond natIdentity natCompare
    = Some out ∧
    ∀ e, e ∈ edges diamond → appearsBefore (from e) (to e) out.
Proof.
  exact (dagTopologicalSortDFS_orders_edges diamond natIdentity natCompare
           diamond_acyclic diamond_endpoints natIdentity_inj natCompare_zero).
Defined.

(** Claim C10. When the nodes of the graph have pairwise distinct NodeIDs,
    the comparator returns zero exactly for nodes of the same NodeID, and
    the edge endpoints all occur in the node list, [dagTopologicalSortDFS]
    returns a permutation of [graph.nodes]. *)
Theorem dagTopologicalSortDFS_permutation
    {Node NodeID : Type} `{Countable NodeID} (graph : Graph Node)
    (identity : NodeIdentitySupplier Node NodeID)
    (compare : NodeComparator Node) :
  NoDup (identity <$> nodes graph) →
  (∀ a b, compare a b = 0%Z ↔ identity a = identity b) →
  endpointsInNodes graph →
  ∃ out,
    TopologicalSort.dagTopologicalSortDFS graph identity compare = Some out ∧
    out ≡ₚ nodes graph.
Proof.
  intros Hdistinct _ Hends.
  destruct (dagTopologicalSortDFS_visits graph identity compare)
    as (out & Hrun & Hnd & Hcover & Hfrom & _).
  exists out. split; [done|].
  assert (∀ m, m ∈ out → m ∈ nodes graph) as Hsub.
  { intros m [?|(e & He & ->)]%Hfrom; [done|]. by apply Hends. }
  apply NoDup_Permutation; [by eapply NoDup_fmap_1 | by eapply NoDup_fmap_1 |].
  intros n. split; [by apply Hsub|]. intros Hn.
  destruct (proj1 (list_elem_of_fmap _ _ _) (Hcover n Hn)) as (m & Hm & Hin).
  by rewrite (NoDup_fmap_eq identity (nodes graph) n m Hdistinct Hn
                (Hsub m Hin) Hm).
Qed.

Lemma dagTopologicalSortDFS_permutation_witness :
  ∃ out,
    TopologicalSort.dagTopologicalSortDFS diamond natIdentity natCompare
    = Some out ∧
    out ≡ₚ nodes diamond.
Proof.
  apply (dagTopologicalSortDFS_permutation diamond natIdentity natCompare).
  - apply (bool_decide_unpack _). by vm_compute.
  - exact natCompare_zero.
  - exact diamond_endpoints.
Defined.

(** The endpoint precondition of C10 matters: the [to] node of a dangling
    edge is in the output without being a node of the graph. *)
Example dagTopologicalSortDFS_dangling :
  TopologicalSort.dagTopologicalSortDFS dangling natIdentity natCompare
  = Some [0; 5] ∧ 5 ∉ nodes dangling.
Proof. split; [by vm_compute|]. cbn. set_solver. Qed.

(** Claim C3. With an injective identity function and a comparator that
    returns zero exactly for nodes of the same NodeID, every graph node
    other than the target is in exactly one of the two lists that
    [dagDependencies] returns over [dagTopologicalSortDFS]; a node that
    compares as zero with the target is in neither. *)
Theorem dagDependencies_partitions
    {Node NodeID : Type} `{Countable NodeID} (graph : Graph Node)
    (identity : NodeIdentitySupplier Node NodeID)
    (compare : NodeComparator Node) (targetNode : Node) :
  (∀ a b, identity a = identity b → a = b) →
  (∀ a b, compare a b = 0%Z ↔ identity a = identity b) →
  ∃ r,
    Deps.dagDependencies graph identity compare
      (λ g i c, TopologicalSort.dagTopologicalSortDFS g i c) targetNode
    = Some r ∧
    ∀ n, n ∈ nodes graph →
         (n ≠ targetNode →
          n ∈ dependencies r ∧ n ∉ dependents r ∨
          n ∉ dependencies r ∧ n ∈ dependents r) ∧
         (compare n targetNode = 0%Z →
          n ∉ dependencies r ∧ n ∉ dependents r).
Proof.
  intros Hinj Hcmp.
  destruct (dagTopologicalSortDFS_visits graph identity compare)
    as (out & Hrun & Hnd & Hcover & _).
  by apply (dagDependencies_sorted_partition graph identity compare _ out).
Qed.

Lemma dagDependencies_partitions_witness :
  ∃ r,
    Deps.dagDependencies diamond natIdentity natCompare
      (λ g i c, TopologicalSort.dagTopologicalSortDFS g i c) 1
    = Some r ∧
    ∀ n, n ∈ nodes diamond →
         (n ≠ 1 →
          n ∈ dependencies r ∧ n ∉ dependents r ∨
          n ∉ dependencies r ∧ n ∈ dependents r) ∧
         (natCompare n 1 = 0%Z →
          n ∉ dependencies r ∧ n ∉ dependents r).
Proof.
  exact (dagDependencies_partitions diamond natIdentity natCompare 1
           natIdentity_inj natCompare_zero).
Defined.

(** The target is absent from the index of [dagTopologicalSortDFS] when
    its NodeID is that of no graph node and of no edge's [to]. *)
Lemma dagDependencies_target_outside
    {Node NodeID : Type} `{Countable NodeID} (graph : Graph Node)
    (identity : NodeIdentitySupplier Node NodeID)
    (compare : NodeComparator Node) (targetNode : Node) :
  (∀ n, n ∈ nodes graph → identity n ≠ identity targetNode) →
  (∀ e, e ∈ edges graph → identity (to e) ≠ identity targetNode) →
  Deps.dagDependencies graph identity compare
    (λ g i c, TopologicalSort.dagTopologicalSortDFS g i c) targetNode
  = Some (mkDependencies
            (filter (λ n, (compare n targetNode < 0)%Z) (nodes graph))
            (filter (λ n, (compare n targetNode > 0)%Z) (nodes graph))).
Proof.
  intros Hnodes Hedges.
  destruct (dagTopologicalSortDFS_visits graph identity compare)
    as (out & Hrun & _ & _ & Hfrom & _).
  apply (dagDependencies_absent graph identity compare _ out); [done|].
  apply indexLoop_None. split; [apply lookup_empty|].
  intros (m & Hm & [Hin|(e & He & ->)]%Hfrom)%list_elem_of_fmap.
  - by apply (Hnodes m).
  - by apply (Hedges e).
Qed.

(** Claim C7, as amended. When the target's NodeID is absent from the
    index built over the topological sort, [dagDependencies] returns (it
    does not fail) and classifies every graph node by the comparator
    alone: negative against the target is a dependency, positive a
    dependent, zero neither.  Over [dagTopologicalSortDFS] the NodeID is
    absent when it is that of no graph node and of no edge's [to] node. *)
Theorem dagDependencies_target_absent
    {Node NodeID : Type} `{Countable NodeID} (graph : Graph Node)
    (identity : NodeIdentitySupplier Node NodeID)
    (compare : NodeComparator Node) (targetNode : Node) :
  (∀ (topologicalSortSupplier :
        Graph Node → NodeIdentitySupplier Node NodeID →
        NodeComparator Node → option (list Node))
     (topologicalSort : list Node),
     topologicalSortSupplier graph identity compare = Some topologicalSort →
     Deps.indexLoop identity topologicalSort 0 ∅ !! identity targetNode
     = None →
     Deps.dagDependencies graph identity compare topologicalSortSupplier
       targetNode
     = Some (mkDependencies
               (filter (λ n, (compare n targetNode < 0)%Z) (nodes graph))
               (filter (λ n, (compare n targetNode > 0)%Z) (nodes graph)))) ∧
  ((∀ n, n ∈ nodes graph → identity n ≠ identity targetNode) →
   (∀ e, e ∈ edges graph → identity (to e) ≠ identity targetNode) →
   Deps.dagDependencies graph identity compare
     (λ g i c, TopologicalSort.dagTopologicalSortDFS g i c) targetNode
   = Some (mkDependencies
             (filter (λ n, (compare n targetNode < 0)%Z) (nodes graph))
             (filter (λ n, (compare n targetNode > 0)%Z) (nodes graph)))).
Proof.
  split.
  - intros supplier out Hsort Hidx.
    by apply (dagDependencies_absent _ _ _ _ _ Hsort).
  - apply dagDependencies_target_outside.
Qed.

Lemma dagDependencies_target_absent_witness :
  Deps.dagDependencies diamond natIdentity natCompare
    (λ g i c, TopologicalSort.dagTopologicalSortDFS g i c) 7
  = Some (mkDependencies [3; 2; 1; 0] []) ∧
  Deps.dagDependencies diamond natIdentity natCompare
    (λ g i c, TopologicalSort.dagTopologicalSortDFS g i c) 7
  = Some (mkDependencies
            (filter (λ n, (natCompare n 7%nat < 0)%Z) (nodes diamond))
            (filter (λ n, (natCompare n 7%nat > 0)%Z) (nodes diamond))).
Proof.
  destruct (dagDependencies_target_absent diamond natIdentity natCompare 7)
    as [Hindex Hfacade].
  split.
  - apply (Hindex (λ g i c, TopologicalSort.dagTopologicalSortDFS g i c)
             [0; 1; 2; 3]); by vm_compute.
  - apply Hfacade.
    + intros n Hn. cbn in Hn. unfold natIdentity. set_solver by lia.
    + intros e He. cbn in He. unfold natIdentity. set_solver by lia.
Defined.

(** Claim C7 as stated fails for a target that is merely not in
    [graph.nodes]: the edge 9 → 5 puts the target 5 in the sort and in the
    index, node 9 precedes it there and is listed as a dependency, while
    the comparator alone (9 - 5 > 0) would make it a dependent. *)
Lemma dagDependencies_target_not_a_node_counterexample :
  5 ∉ nodes edgeToTarget ∧
  Deps.dagDependencies edgeToTarget natIdentity natCompare
    (λ g i c, TopologicalSort.dagTopologicalSortDFS g i c) 5
  = Some (mkDependencies [9] []) ∧
  filter (λ n, (natCompare n 5%nat < 0)%Z) (nodes edgeToTarget) = [] ∧
  filter (λ n, (natCompare n 5%nat > 0)%Z) (nodes edgeToTarget) = [9].
Proof.
  split_and!; [cbn; set_solver | by vm_compute..].
Qed.

(** Claim C4, as amended. In [dagCyclesDFS] the edge pushed onto
    [cycleEdges] for a neighbour is popped just after the neighbour is
    explored when no cycle was signalled; when a cycle is signalled the
    function returns at once and the edge stays on [cycleEdges]. *)
Theorem exploreEdge_pops_unless_cycle
    {Node NodeID : Type} `{Countable NodeID} (graph : Graph Node)
    (identity : NodeIdentitySupplier Node NodeID)
    (compare : NodeComparator Node)
    (fuel : nat) (edge : Edge Node) (st : Cycles.State) (b : bool)
    (st' : Cycles.State) :
  Cycles.exploreEdge identity (Cycles.dagDFS graph identity compare fuel)
    edge st = Some (b, st') →
  if b then
    ∃ es, cycleEdges (Cycles.live st')
          = cycleEdges (Cycles.live st) ++ edge :: es
  else cycleEdges (Cycles.live st') = cycleEdges (Cycles.live st).
Proof.
  intros Hrun.
  apply (exploreEdge_extends identity) in Hrun;
    [|apply dagDFS_extends].
  destruct b; [|by rewrite Hrun]. destruct Hrun as (ns & es & _ & ->). eauto.
Qed.

Lemma exploreEdge_pops_unless_cycle_witness :
  ∃ st',
    Cycles.exploreEdge natIdentity
      (Cycles.dagDFS diamond natIdentity natCompare 3) (mkEdge 0 1) entered0
    = Some (false, st') ∧
    cycleEdges (Cycles.live st') = cycleEdges (Cycles.live entered0).
Proof.
  assert (∃ st',
    Cycles.exploreEdge natIdentity
      (Cycles.dagDFS diamond natIdentity natCompare 3) (mkEdge 0 1) entered0
    = Some (false, st')) as [st' Hrun].
  { eexists. vm_compute. reflexivity. }
  exists st'. split; [exact Hrun|].
  exact (exploreEdge_pops_unless_cycle diamond natIdentity natCompare 3
           (mkEdge 0 1) entered0 false st' Hrun).
Defined.

(** Claim C4 as stated fails: on the self-loop the edge 0 → 0 is pushed,
    the neighbour is found on the recursion stack, and [dagDFS] returns
    [true] with the edge still on [cycleEdges]. *)
Lemma exploreEdge_pop_counterexample :
  ∃ st',
    Cycles.exploreEdge natIdentity
      (Cycles.dagDFS selfLoop natIdentity natCompare 2) (mkEdge 0 0) entered0
    = Some (true, st') ∧
    cycleEdges (Cycles.live entered0) = [] ∧
    cycleEdges (Cycles.live st') = [mkEdge 0 0].
Proof. eexists. split_and!; vm_compute; reflexivity. Qed.

(** Claim C5. [dagCyclesDFS] produces at most one record per root of its
    outer loop.  The outer loop searches, once each and in order, the
    nodes whose NodeID is not visited at their turn; a search that signals
    a cycle stops there, with the recursion stack as it was and the two
    arrays as they were at the detection (the last edge is the one whose
    neighbour was found on the recursion stack, the first node is the
    root), and these arrays are its one record; a search that does not
    signal one yields none.  So there are at most as many records as
    nodes. *)
Theorem dagCyclesDFS_one_record_per_root
    {Node NodeID : Type} `{Countable NodeID} (graph : Graph Node)
    (identity : NodeIdentitySupplier Node NodeID)
    (compare : NodeComparator Node) :
  ∃ found runs,
    Cycles.dagCyclesDFS graph identity compare = Some found ∧
    rootRuns graph identity compare (S (length (edges graph))) (nodes graph)
      (Cycles.mkState ∅ ∅ (mkCycle [] [])) runs ∧
    found = recordsOf runs ∧
    sublist (runRoot <$> runs) (nodes graph) ∧
    Forall (λ run, runSignalled run = true →
                   headedBy (runRoot run) (Cycles.live (runAfter run)) ∧
                   stoppedAtDetection graph identity compare (runAfter run))
      runs ∧
    length found ≤ length (nodes graph).
Proof.
  destruct (rootLoop_runs graph identity compare (nodes graph)
              (Cycles.mkState ∅ ∅ (mkCycle [] [])) [])
    as (runs & Hrun & Hruns & Hsub & Hall).
  exists (recordsOf runs), runs.
  split; [done|]. split; [done|]. split; [done|]. split; [done|].
  split; [done|].
  etrans; [apply recordsOf_length|].
  apply sublist_length in Hsub. by rewrite length_fmap in Hsub.
Qed.

(** The runs of the outer loop on a graph of two nodes: node 0 is searched
    and signals the cycle 0 → 1 → 0, node 1 is then visited and not
    searched; the one run gives the one record. *)
Example dagCyclesDFS_loopAfterCycle_runs :
  ∃ after,
    rootRuns loopAfterCycle natIdentity natCompare
      (S (length (edges loopAfterCycle))) (nodes loopAfterCycle)
      (Cycles.mkState ∅ ∅ (mkCycle [] []))
      [mkRun 0 (Cycles.mkState ∅ ∅ (mkCycle [] [])) true after] ∧
    recordsOf [mkRun 0 (Cycles.mkState ∅ ∅ (mkCycle [] [])) true after]
    = [mkCycle [0; 1] [mkEdge 0 1; mkEdge 1 0]] ∧
    stoppedAtDetection loopAfterCycle natIdentity natCompare after.
Proof.
  eexists. split; [|split].
  - cbn [rootRuns nodes loopAfterCycle].
    rewrite decide_False by (cbn [Cycles.visited]; set_solver).
    split; [done|]. split; [done|]. split; [by vm_compute|].
    rewrite decide_True; [done|]. by vm_compute.
  - by vm_compute.
  - exists [0], 1, [mkEdge 0 1], (mkEdge 1 0).
    split; [done|]. split; [done|].
    split; [cbn [edges loopAfterCycle]; set_solver|].
    split; [done|]. split_and!; by vm_compute.
Qed.

(** What the code does report of a self-loop on a node of the node list:
    [dagIsCyclicalDFS] returns [true]; and when the identity function is
    injective, [dagCyclesDFS] returns at least one record whose
    [cycleNodes] contains that node. *)
Theorem selfLoop_is_reported
    {Node NodeID : Type} `{Countable NodeID} (graph : Graph Node)
    (identity : NodeIdentitySupplier Node NodeID)
    (compare : NodeComparator Node) (n : Node) (e : Edge Node) :
  n ∈ nodes graph →
  e ∈ edges graph →
  compare (from e) n = 0%Z →
  identity (to e) = identity n →
  IsCyclical.dagIsCyclicalDFS graph identity compare = Some true ∧
  ((∀ a b, identity a = identity b → a = b) →
   ∃ found,
     Cycles.dagCyclesDFS graph identity compare = Some found ∧
     ∃ r, r ∈ found ∧ n ∈ cycleNodes r).
Proof.
  intros Hn He Hfrom Hto. split.
  - unfold IsCyclical.dagIsCyclicalDFS.
    destruct (rootLoop_returns graph identity compare (nodes graph)
                (IsCyclical.mkState ∅ ∅)) as [b Hrun].
    rewrite Hrun. f_equal.
    by apply (rootLoop_selfLoop graph identity compare _ _ _ _ n e) in Hrun.
  - intros Hinj.
    destruct (rootLoop_records graph identity compare (nodes graph)
                (Cycles.mkState ∅ ∅ (mkCycle [] [])) [])
      as (found & _ & Hrun & _).
    exists found. split; [done|].
    apply (cycles_rootLoop_selfLoop graph identity compare n e He Hfrom Hto
             Hinj _ _ _ _ _ Hrun); [|by right].
    cbn [Cycles.visited]. set_solver.
Qed.

Lemma selfLoop_is_reported_witness :
  IsCyclical.dagIsCyclicalDFS loopAfterCycle natIdentity natCompare
  = Some true ∧
  ∃ found,
    Cycles.dagCyclesDFS loopAfterCycle natIdentity natCompare = Some found ∧
    ∃ r, r ∈ found ∧ 1 ∈ cycleNodes r.
Proof.
  assert (1 ∈ nodes loopAfterCycle) as Hn by (cbn; set_solver).
  assert (mkEdge 1 1 ∈ edges loopAfterCycle) as He by (cbn; set_solver).
  destruct (selfLoop_is_reported loopAfterCycle natIdentity natCompare 1
              (mkEdge 1 1) Hn He eq_refl eq_refl) as [Hcyc Hrec].
  split; [exact Hcyc | exact (Hrec natIdentity_inj)].
Defined.

(** Claim C6. The code at the input where it breaks the claim: the graph
    has the self-loop 1 → 1 on its node 1, the search from node 0 stops at
    the cycle 0 → 1 → 0, and node 1, now visited, is no root; the one
    record returned does not hold the edge 1 → 1, although [dagCyclesDFS]
    is documented to find and store all cycles. *)
Lemma dagCyclesDFS_omits_selfLoop_edge :
  1 ∈ nodes loopAfterCycle ∧
  mkEdge 1 1 ∈ edges loopAfterCycle ∧
  natCompare 1 1 = 0%Z ∧
  Cycles.dagCyclesDFS loopAfterCycle natIdentity natCompare
  = Some [mkCycle [0; 1] [mkEdge 0 1; mkEdge 1 0]] ∧
  ¬ ∃ r, r ∈ [mkCycle [0; 1] [mkEdge 0 1; mkEdge 1 0]] ∧
         1 ∈ cycleNodes r ∧ mkEdge 1 1 ∈ cycleEdges r.
Proof.
  split_and!; [cbn; set_solver | cbn; set_solver | done | by vm_compute |].
  intros (r & ->%list_elem_of_singleton & _ & He). cbn in He.
  apply elem_of_cons in He as [?|He]; [done|].
  apply elem_of_cons in He as [?|He]; [done|]. by apply elem_of_nil in He.
Qed.

(** Why the record of the node needs the identity function injective: node 0
    marks the shared NodeID without leaving by the self-loop of node 1, and
    node 1, found visited, is never searched. *)
Example selfLoop_alias_unreported :
  IsCyclical.dagIsCyclicalDFS aliased oneIdentity natCompare = Some true ∧
  Cycles.dagCyclesDFS aliased oneIdentity natCompare = Some [].
Proof. split; by vm_compute. Qed.

(** Claim C8. The diagram is the node lines in input order, then the edge
    lines in input order, between the [@startuml] and [@enduml] markers;
    for two nodes labelled [A] and [B] and one edge labelled from [A] to
    [B], no features, it is the five lines [@startuml], [A], [B],
    [A --> B], [@enduml]. *)
Theorem graphPlantUmlDiagram_lines :
  (∀ (Node : Type) (graph : Graph Node) (nodeOption : Node → PumlNode.t)
     (edgeOption : Edge Node → PumlEdge.t),
     graphPlantUmlDiagram graph nodeOption edgeOption
     = "@startuml" +:+ newline
       +:+ String.concat newline (map (nodeLine nodeOption) (nodes graph))
       +:+ newline
       +:+ String.concat newline (map (edgeLine edgeOption) (edges graph))
       +:+ newline +:+ "@enduml") ∧
  (∀ (Node : Type) (a b : Node) (e : Edge Node)
     (nodeOption : Node → PumlNode.t) (edgeOption : Edge Node → PumlEdge.t),
     nodeOption a = PumlNode.mk "A" None →
     nodeOption b = PumlNode.mk "B" None →
     edgeOption e = PumlEdge.mk "A" "B" None →
     graphPlantUmlDiagram (mkGraph [a; b] [e]) nodeOption edgeOption
     = "@startuml" +:+ newline +:+ "A" +:+ newline +:+ "B" +:+ newline
       +:+ "A --> B" +:+ newline +:+ "@enduml").
Proof.
  split.
  - intros Node graph nodeOption edgeOption. unfold graphPlantUmlDiagram.
    by rewrite nodeLinesLoop_map, edgeLinesLoop_map.
  - intros Node a b e nodeOption edgeOption Ha Hb He.
    unfold graphPlantUmlDiagram. cbn [nodes edges nodeLinesLoop edgeLinesLoop app].
    unfold nodeLine, edgeLine. rewrite Ha, Hb, He. reflexivity.
Qed.

Lemma graphPlantUmlDiagram_lines_witness :
  graphPlantUmlDiagram (mkGraph [0; 1] [mkEdge 0 1]) abNode abEdge
  = "@startuml" +:+ newline +:+ "A" +:+ newline +:+ "B" +:+ newline
    +:+ "A --> B" +:+ newline +:+ "@enduml".
Proof.
  apply (proj2 graphPlantUmlDiagram_lines nat 0 1 (mkEdge 0 1) abNode abEdge);
    reflexivity.
Defined.

(** * Further properties *)

(** ** The cycle test inside [dagCyclesDFS] *)

Section CycleTestInside.
Context {Node NodeID : Type} `{Countable NodeID}.
Variable graph : Graph Node.
Variable identity : NodeIdentitySupplier Node NodeID.
Variable compare : NodeComparator Node.

Local Abbreviation StC := (@Cycles.State Node NodeID _ _).
Local Abbreviation StI := (@IsCyclical.State NodeID _ _).
Local Abbreviation dfsC := (Cycles.dagDFS graph identity compare).
Local Abbreviation dfsI := (IsCyclical.dagDFS graph identity compare).
Local Abbreviation simulates := (@simulates Node NodeID _ _).
Local Abbreviation unstacks := (unstacks identity).

Lemma isCyclical_edgeLoop_unstacks rec node es (st st' : StI) :
  IsCyclical.edgeLoop identity compare rec node es st = Some (false, st') →
  identity node ∉ IsCyclical.recursionStack st'.
Proof.
  revert st. induction es as [|e es IH]; intros st Hrun;
    cbn [IsCyclical.edgeLoop] in Hrun.
  - simplify_eq. cbn [IsCyclical.recursionStack]. set_solver.
  - repeat case_decide; simplify_eq; eauto.
    destruct (rec _ _) as [[[] st1]|]; simplify_eq.
    case_decide; simplify_eq; eauto.
Qed.

Lemma isCyclical_dagDFS_unstacks fuel : unstacks (dfsI fuel).
Proof.
  intros nb s s' Hrun. destruct fuel as [|fuel]; [done|].
  cbn [IsCyclical.dagDFS] in Hrun. by eapply isCyclical_edgeLoop_unstacks.
Qed.

Lemma edgeLoop_simulates recC recI node es (st : StC) b st' :
  simulates recC recI → unstacks recI →
  Cycles.edgeLoop identity compare recC node es st = Some (b, st') →
  IsCyclical.edgeLoop identity compare recI node es (forgetLive st)
  = Some (b, forgetLive st').
Proof.
  intros Hsim Hun. revert st.
  induction es as [|e es IH]; intros st Hrun;
    cbn [Cycles.edgeLoop IsCyclical.edgeLoop] in *.
  - by simplify_eq.
  - destruct (decide (compare (from e) node = 0%Z)); [|by apply IH].
    unfold Cycles.exploreEdge in Hrun.
    cbn [Cycles.visited Cycles.recursionStack Cycles.pushEdge] in Hrun.
    cbn [forgetLive IsCyclical.visited IsCyclical.recursionStack].
    destruct (decide (identity (to e) ∈ Cycles.visited st)).
    + destruct (decide (identity (to e) ∈ Cycles.recursionStack st));
        [by simplify_eq|].
      by apply IH in Hrun.
    + destruct (recC (to e) (Cycles.pushEdge e st)) as [[b1 st1]|] eqn:Hcall;
        [|done].
      apply Hsim in Hcall. change (forgetLive (Cycles.pushEdge e st))
        with (forgetLive st) in Hcall.
      rewrite Hcall. destruct b1; [by simplify_eq|].
      rewrite decide_False by (by apply Hun in Hcall).
      by apply IH in Hrun.
Qed.

Lemma dagDFS_simulates fuel : simulates (dfsC fuel) (dfsI fuel).
Proof.
  induction fuel as [|fuel IH]; intros node st b st' Hrun; [done|].
  cbn [Cycles.dagDFS IsCyclical.dagDFS] in *.
  by apply (edgeLoop_simulates _ _ _ _ _ _ _ IH
              (isCyclical_dagDFS_unstacks fuel)) in Hrun.
Qed.

Lemma cycles_rootLoop_appends fuel ns (st : StC) cycleList found :
  Cycles.rootLoop graph identity compare fuel ns st cycleList = Some found →
  ∃ more, found = cycleList ++ more.
Proof.
  revert st cycleList.
  induction ns as [|node ns IH]; intros st cycleList Hrun;
    cbn [Cycles.rootLoop] in Hrun.
  - simplify_eq. exists []. by rewrite app_nil_r.
  - case_decide; [by eapply IH|].
    destruct (dfsC fuel node _) as [[[] st1]|]; [| |done].
    + apply IH in Hrun as [more ->]. eexists. by rewrite <- app_assoc.
    + by eapply IH.
Qed.

Lemma rootLoop_simulates fuel ns (st : StC) cycleList found :
  Cycles.rootLoop graph identity compare fuel ns st cycleList = Some found →
  ∃ b, IsCyclical.rootLoopUnvisited graph identity compare fuel ns
         (forgetLive st) = Some b ∧
       if (b : bool) then length cycleList < length found
       else found = cycleList.
Proof.
  revert st cycleList.
  induction ns as [|node ns IH]; intros st cycleList Hrun;
    cbn [Cycles.rootLoop IsCyclical.rootLoopUnvisited] in *.
  - simplify_eq. by exists false.
  - change (IsCyclical.visited (forgetLive st)) with (Cycles.visited st).
    destruct (decide (identity node ∈ Cycles.visited st)); [by apply IH|].
    destruct (dfsC fuel node _) as [[b1 st1]|] eqn:Hcall; [|done].
    apply dagDFS_simulates in Hcall.
    change (forgetLive (Cycles.mkState _ _ _)) with (forgetLive st) in Hcall.
    rewrite Hcall. destruct b1; [|by apply IH].
    exists true. split; [done|].
    apply cycles_rootLoop_appends in Hrun as [more ->].
    rewrite !length_app. cbn. lia.
Qed.

End CycleTestInside.

Lemma dagCyclesDFS_agrees
    {Node NodeID : Type} `{Countable NodeID} (graph : Graph Node)
    (identity : NodeIdentitySupplier Node NodeID)
    (compare : NodeComparator Node) :
  (∀ a b, compare a b = 0%Z ↔ identity a = identity b) →
  ∃ b found,
    IsCyclical.rootLoop graph identity compare (S (length (edges graph)))
      (nodes graph) (IsCyclical.mkState ∅ ∅) = Some b ∧
    Cycles.dagCyclesDFS graph identity compare = Some found ∧
    (b = true ↔ found ≠ []).
Proof.
  intros Hcmp.
  destruct (rootLoop_records graph identity compare (nodes graph)
              (Cycles.mkState ∅ ∅ (mkCycle [] [])) [])
    as (found & _ & Hrun & _).
  destruct (rootLoop_simulates _ _ _ _ _ _ _ _ Hrun) as (b & Hb & Hlen).
  exists b, found. split_and!; [|done|].
  - rewrite (rootLoop_rootLoopUnvisited graph identity compare Hcmp);
      [done | apply Inv_empty | done].
  - destruct b; [|by subst].
    split; [|done]. intros _ ->. cbn in Hlen. lia.
Qed.

(** The records of [dagCyclesDFS] are empty exactly when
    [dagIsCyclicalDFS] returns [false], for a comparator that returns zero
    exactly for nodes of the same NodeID. *)
Theorem dagCyclesDFS_nonempty_iff_cyclical
    {Node NodeID : Type} `{Countable NodeID} (graph : Graph Node)
    (identity : NodeIdentitySupplier Node NodeID)
    (compare : NodeComparator Node) :
  (∀ a b, compare a b = 0%Z ↔ identity a = identity b) →
  ∃ b found,
    IsCyclical.dagIsCyclicalDFS graph identity compare = Some b ∧
    Cycles.dagCyclesDFS graph identity compare = Some found ∧
    (b = true ↔ found ≠ []).
Proof. intros Hcmp. exact (dagCyclesDFS_agrees graph identity compare Hcmp). Qed.

Lemma dagCyclesDFS_nonempty_iff_cyclical_witness :
  ∃ b found,
    IsCyclical.dagIsCyclicalDFS triangle natIdentity natCompare = Some b ∧
    Cycles.dagCyclesDFS triangle natIdentity natCompare = Some found ∧
    (b = true ↔ found ≠ []).
Proof.
  exact (dagCyclesDFS_nonempty_iff_cyclical triangle natIdentity natCompare
           natCompare_zero).
Defined.

(** ** The records of [dagCyclesDFS] as walks *)

Section RecordWalks.
Context {Node NodeID : Type} `{Countable NodeID}.
Variable graph : Graph Node.
Variable identity : NodeIdentitySupplier Node NodeID.
Variable compare : NodeComparator Node.

Local Abbreviation StC := (@Cycles.State Node NodeID _ _).
Local Abbreviation dfsC := (Cycles.dagDFS graph identity compare).
Local Abbreviation linked := (linked compare).
Local Abbreviation live := Cycles.live.
Local Abbreviation walks := (walks graph compare).
Local Abbreviation closesSpec := (closesSpec identity).

Lemma linked_length ns es : linked ns es → length ns = length es.
Proof.
  revert es. induction ns as [|n ns IH]; intros [|e es]; cbn; try tauto.
  intros [_ Hrest]. destruct ns as [|m ns]; [by subst|].
  destruct Hrest as [_ Hrest]. by rewrite (IH es Hrest).
Qed.

Lemma edgeLoop_walks rec node es0 (st st' : StC) :
  walks rec → extends rec →
  (∀ e, e ∈ es0 → e ∈ edges graph) →
  Cycles.edgeLoop identity compare rec node es0 st = Some (true, st') →
  ∃ ns es,
    cycleNodes (live st') = cycleNodes (live st) ++ ns ∧
    cycleEdges (live st') = cycleEdges (live st) ++ es ∧
    linked (node :: ns) es ∧ Forall (λ e, e ∈ edges graph) es.
Proof.
  intros Hrec Hext. revert st.
  induction es0 as [|e es0 IH]; intros st Hes Hrun;
    cbn [Cycles.edgeLoop] in Hrun; [done|].
  assert (∀ e', e' ∈ es0 → e' ∈ edges graph) as Hes'
    by (intros; apply Hes; by right).
  assert (e ∈ edges graph) as Hin by (apply Hes; by left).
  destruct (decide (compare (from e) node = 0%Z)) as [Hcmp|]; [|by apply IH].
  destruct (Cycles.exploreEdge identity rec e st) as [[[] st1]|] eqn:Hstep;
    [| |done].
  - simplify_eq. unfold Cycles.exploreEdge in Hstep.
    repeat case_decide; simplify_eq.
    + exists [], [e]. cbn. rewrite app_nil_r.
      split_and!; [done..|]. by constructor.
    + destruct (rec _ _) as [[[] st2]|] eqn:Hcall; simplify_eq.
      apply Hrec in Hcall as (ns & es & Hn & He & Hl & Hall).
      cbn [Cycles.live Cycles.pushEdge cycleNodes cycleEdges] in Hn, He.
      exists (to e :: ns), (e :: es). rewrite Hn, He, <- app_assoc.
      split_and!; [done..| |by constructor]. cbn. cbn in Hl. tauto.
  - apply (exploreEdge_extends identity _ _ _ _ _ Hext) in Hstep.
    apply IH in Hrun; [|done]. by rewrite Hstep in Hrun.
Qed.

Lemma dagDFS_walks fuel : walks (dfsC fuel).
Proof.
  induction fuel as [|fuel IH]; intros node st st' Hrun; [done|].
  cbn [Cycles.dagDFS] in Hrun.
  apply (edgeLoop_walks _ _ _ _ _ IH (dagDFS_extends _ _ _ fuel)) in Hrun
    as (ns & es & Hn & He & Hl & Hall); [|done].
  cbn [Cycles.live Cycles.pushNode cycleNodes cycleEdges] in Hn, He.
  exists ns, es. by rewrite Hn, He, <- app_assoc.
Qed.

Lemma rootLoop_walks fuel ns (st : StC) cycleList found :
  Cycles.rootLoop graph identity compare fuel ns st cycleList = Some found →
  Forall (λ r, linked (cycleNodes r) (cycleEdges r) ∧
               Forall (λ e, e ∈ edges graph) (cycleEdges r)) cycleList →
  Forall (λ r, linked (cycleNodes r) (cycleEdges r) ∧
               Forall (λ e, e ∈ edges graph) (cycleEdges r)) found.
Proof.
  revert st cycleList.
  induction ns as [|node ns IH]; intros st cycleList Hrun Hall;
    cbn [Cycles.rootLoop] in Hrun.
  - by simplify_eq.
  - case_decide; [by eapply IH|].
    destruct (dfsC fuel node _) as [[[] st1]|] eqn:Hcall; [| |done];
      [|by eapply IH].
    eapply IH; [done|]. apply Forall_app. split; [done|].
    apply dagDFS_walks in Hcall as (ns' & es & Hn & He & Hl & Hedges).
    cbn [Cycles.live cycleNodes cycleEdges app] in Hn, He.
    constructor; [|constructor]. by rewrite Hn, He.
Qed.

(** *** The first record closes *)

Local Abbreviation tracks := (tracks identity).

Lemma edgeLoop_closes rec node es (st : StC) b st' :
  closesSpec rec → extends rec → marks identity rec →
  tracks st →
  Cycles.edgeLoop identity compare rec node es st = Some (b, st') →
  if (b : bool) then closes identity (live st')
  else Cycles.recursionStack st'
       = Cycles.recursionStack st ∖ {[identity node]}.
Proof.
  intros Hrec Hext Hmarks. revert st.
  induction es as [|e es IH]; intros st Htr Hrun;
    cbn [Cycles.edgeLoop] in Hrun.
  - by simplify_eq.
  - destruct (decide (compare (from e) node = 0%Z)); [|by apply IH].
    destruct (Cycles.exploreEdge identity rec e st) as [[b1 st1]|] eqn:Hstep;
      [|done].
    pose proof (exploreEdge_extends identity _ _ _ _ _ Hext Hstep) as Hlive.
    pose proof (exploreEdge_visited identity _ _ _ _ _ Hmarks Hstep) as Hvis.
    unfold Cycles.exploreEdge in Hstep.
    assert (if b1 then closes identity (live st1)
            else Cycles.recursionStack st1 = Cycles.recursionStack st)
      as Hone.
    { destruct Htr as [Hsub Hids].
      repeat case_decide; simplify_eq.
      - exists (cycleEdges (live st)), e. split; [done|].
        cbn [Cycles.live Cycles.pushEdge cycleNodes]. by apply Hids.
      - done.
      - destruct (rec _ _) as [[[] st2]|] eqn:Hcall; simplify_eq.
        + by apply (Hrec _ (Cycles.pushEdge e st) _ _ (conj Hsub Hids)) in Hcall.
        + by apply (Hrec _ (Cycles.pushEdge e st) _ _ (conj Hsub Hids))
            in Hcall. }
    destruct b1; [by simplify_eq|].
    apply IH in Hrun.
    + destruct b; [done|]. by rewrite Hrun, Hone.
    + destruct Htr as [Hsub Hids]. split; rewrite Hone; [set_solver|].
      by rewrite Hlive.
Qed.

Lemma dagDFS_closes fuel : closesSpec (dfsC fuel).
Proof.
  induction fuel as [|fuel IH]; intros node st b st' [Hsub Hids] Hvis Hrun;
    [done|].
  cbn [Cycles.dagDFS] in Hrun.
  apply (edgeLoop_closes _ _ _ _ _ _ IH (dagDFS_extends _ _ _ fuel)
           (dagDFS_marks _ _ _ fuel)) in Hrun.
  - destruct b; [done|].
    cbn [Cycles.recursionStack Cycles.pushNode] in Hrun. set_solver.
  - split; cbn [Cycles.recursionStack Cycles.visited Cycles.pushNode
                  Cycles.live cycleNodes]; [set_solver|].
    intros x. rewrite fmap_app, elem_of_app, <- Hids. set_solver.
Qed.

Lemma rootLoop_first_closes fuel ns (st : StC) r rest :
  Cycles.recursionStack st = ∅ →
  Cycles.rootLoop graph identity compare fuel ns st [] = Some (r :: rest) →
  closes identity r.
Proof.
  revert st. induction ns as [|node ns IH]; intros st Hstk Hrun;
    cbn [Cycles.rootLoop] in Hrun; [done|].
  case_decide as Hvis; [by eapply IH|].
  set (st0 := Cycles.mkState (Cycles.visited st) (Cycles.recursionStack st)
                (mkCycle [] [])) in *.
  destruct (dfsC fuel node st0) as [[b st1]|] eqn:Hcall; [|done].
  apply (dagDFS_closes fuel node st0) in Hcall; [|split|done].
  - destruct b.
    + apply cycles_rootLoop_appends in Hrun as [more Hrun].
      cbn in Hrun. by injection Hrun as -> _.
    + apply (IH st1); [|done]. by rewrite Hcall.
  - subst st0. cbn. rewrite Hstk. set_solver.
  - subst st0. cbn. rewrite Hstk. set_solver.
Qed.

(** *** A walk that closes is a cycle of the graph *)

Hypothesis identity_inj : ∀ a b, identity a = identity b → a = b.
Hypothesis compare_zero :
  ∀ a b, compare a b = 0%Z ↔ identity a = identity b.

Lemma linked_reaches ns es :
  linked ns es → Forall (λ e, e ∈ edges graph) es →
  ∃ nk ek es', es = es' ++ [ek] ∧ from ek = nk ∧
               ∀ m, m ∈ ns → rtc (nodeEdge graph) m nk.
Proof.
  revert es. induction ns as [|n ns IH]; intros [|e es]; cbn; try tauto.
  intros [Hcmp Hrest] Hall.
  apply compare_zero, identity_inj in Hcmp.
  apply Forall_cons in Hall as [He Hall].
  destruct ns as [|m ns].
  - subst es. exists n, e, []. split_and!; [done..|].
    by intros m ->%list_elem_of_singleton.
  - destruct Hrest as [Hto Hrest].
    destruct (IH es Hrest Hall) as (nk & ek & es' & -> & Hfrom & Hreach).
    exists nk, ek, (e :: es'). split_and!; [done..|].
    intros x [->|Hx]%elem_of_cons; [|by apply Hreach].
    eapply rtc_l; [|apply Hreach; by left]. by exists e.
Qed.

Lemma linked_closes_cycle record :
  linked (cycleNodes record) (cycleEdges record) →
  Forall (λ e, e ∈ edges graph) (cycleEdges record) →
  closes identity record →
  ∃ m, m ∈ cycleNodes record ∧ tc (nodeEdge graph) m m.
Proof.
  intros Hl Hall (es1 & e1 & He1 & Hto).
  destruct (linked_reaches _ _ Hl Hall) as (nk & ek & es' & He & Hfrom & Hreach).
  rewrite He1 in He. apply app_inj_tail in He as [_ ->].
  apply list_elem_of_fmap in Hto as (c & Hc%identity_inj & Hin).
  exists c. split; [done|].
  eapply tc_rtc_l; [by apply Hreach|]. apply tc_once. exists ek.
  split_and!; [|done..].
  rewrite He1 in Hall. apply Forall_app in Hall as [_ Hall].
  by inversion Hall.
Qed.

End RecordWalks.

(** Every record of [dagCyclesDFS] is a walk: it has as many edges as
    nodes, the edges are edges of the graph, each leaves (by the
    comparator) the node at its position and arrives at the next node. *)
Theorem dagCyclesDFS_records_walk
    {Node NodeID : Type} `{Countable NodeID} (graph : Graph Node)
    (identity : NodeIdentitySupplier Node NodeID)
    (compare : NodeComparator Node) :
  ∃ found,
    Cycles.dagCyclesDFS graph identity compare = Some found ∧
    Forall (λ r, linked compare (cycleNodes r) (cycleEdges r) ∧
                 length (cycleEdges r) = length (cycleNodes r) ∧
                 Forall (λ e, e ∈ edges graph) (cycleEdges r)) found.
Proof.
  destruct (rootLoop_records graph identity compare (nodes graph)
              (Cycles.mkState ∅ ∅ (mkCycle [] [])) [])
    as (found & _ & Hrun & _).
  exists found. split; [done|].
  apply rootLoop_walks in Hrun; [|constructor].
  eapply Forall_impl; [exact Hrun|]. intros r [Hl Hall].
  split_and!; [done| |done]. symmetry. by eapply linked_length.
Qed.

(** The first record of [dagCyclesDFS] closes: its last edge ends at the
    NodeID of one of its nodes. *)
Theorem dagCyclesDFS_first_record_closes
    {Node NodeID : Type} `{Countable NodeID} (graph : Graph Node)
    (identity : NodeIdentitySupplier Node NodeID)
    (compare : NodeComparator Node) (r : Cycle Node)
    (rest : list (Cycle Node)) :
  Cycles.dagCyclesDFS graph identity compare = Some (r :: rest) →
  closes identity r.
Proof.
  intros Hrun.
  exact (rootLoop_first_closes graph identity compare _ _
           (Cycles.mkState ∅ ∅ (mkCycle [] [])) _ _ eq_refl Hrun).
Qed.

Lemma dagCyclesDFS_first_record_closes_witness :
  closes natIdentity (mkCycle [0; 1; 2] [mkEdge 0 1; mkEdge 1 2; mkEdge 2 0]).
Proof.
  apply (dagCyclesDFS_first_record_closes triangle natIdentity natCompare
           _ []).
  by vm_compute.
Defined.

(** With an injective identity function and a comparator that returns zero
    exactly for nodes of the same NodeID, the first record of
    [dagCyclesDFS] holds a directed cycle of the graph through one of its
    nodes. *)
Theorem dagCyclesDFS_first_record_is_cycle
    {Node NodeID : Type} `{Countable NodeID} (graph : Graph Node)
    (identity : NodeIdentitySupplier Node NodeID)
    (compare : NodeComparator Node) (r : Cycle Node)
    (rest : list (Cycle Node)) :
  (∀ a b, identity a = identity b → a = b) →
  (∀ a b, compare a b = 0%Z ↔ identity a = identity b) →
  Cycles.dagCyclesDFS graph identity compare = Some (r :: rest) →
  ∃ m, m ∈ cycleNodes r ∧ tc (nodeEdge graph) m m.
Proof.
  intros Hinj Hcmp Hrun.
  pose proof (rootLoop_first_closes graph identity compare _ _
                (Cycles.mkState ∅ ∅ (mkCycle [] [])) _ _ eq_refl Hrun)
    as Hcl.
  apply rootLoop_walks in Hrun; [|constructor].
  apply Forall_cons in Hrun as [[Hl Hall] _].
  by apply (linked_closes_cycle graph identity compare Hinj Hcmp).
Qed.

Lemma dagCyclesDFS_first_record_is_cycle_witness :
  ∃ m, m ∈ [0; 1; 2] ∧ tc (nodeEdge triangle) m m.
Proof.
  apply (dagCyclesDFS_first_record_is_cycle triangle natIdentity natCompare
           (mkCycle [0; 1; 2] [mkEdge 0 1; mkEdge 1 2; mkEdge 2 0]) []
           natIdentity_inj natCompare_zero).
  by vm_compute.
Defined.

(** Only the first record is such a cycle: a search that signals a cycle
    leaves its nodes on the recursion stack, and a later root that reaches
    one of them yields a record although it lies on no cycle. *)
Example dagCyclesDFS_later_record_no_cycle :
  Cycles.dagCyclesDFS intoLoop natIdentity natCompare
  = Some [mkCycle [0] [mkEdge 0 0]; mkCycle [1] [mkEdge 1 0]] ∧
  ¬ tc (nodeEdge intoLoop) 1 1.
Proof.
  split; [by vm_compute|].
  assert (∀ a b, tc (nodeEdge intoLoop) a b → b = 0) as Hzero.
  { induction 1 as [a b (e & He & <- & <-)|]; [|done].
    cbn in He. set_solver. }
  by intros ?%Hzero.
Qed.

(** ** [dagIsCyclicalDFS] on graphs with dangling edges *)

Section CycleTestReach.
Context {Node NodeID : Type} `{Countable NodeID}.
Variable graph : Graph Node.
Variable identity : NodeIdentitySupplier Node NodeID.
Variable compare : NodeComparator Node.
Hypothesis compare_zero :
  ∀ a b, compare a b = 0%Z ↔ identity a = identity b.

Local Abbreviation StI := (@IsCyclical.State NodeID _ _).
Local Abbreviation idE := (idEdge graph identity).

Lemma idClosed_rtc (B : gset NodeID) u w :
  idClosed graph identity B → u ∈ B → rtc idE u w → w ∈ B.
Proof. intros HB Hu Hp. induction Hp; eauto. Qed.

Lemma rootLoop_false_closed fuel ns (st : StI) :
  Inv graph identity st → IsCyclical.recursionStack st = ∅ →
  IsCyclical.rootLoop graph identity compare fuel ns st = Some false →
  ∃ B : gset NodeID,
    IsCyclical.visited st ⊆ B ∧
    idClosed graph identity B ∧ idNoCycle graph identity B ∧
    ∀ n, n ∈ ns → identity n ∈ B.
Proof.
  revert st. induction ns as [|node ns IH]; intros st Hinv Hstk Hrun;
    cbn [IsCyclical.rootLoop] in Hrun.
  - exists (IsCyclical.visited st). destruct Hinv as (_ & Hcl & Hnc).
    rewrite Hstk in Hcl, Hnc.
    replace (IsCyclical.visited st ∖ ∅) with (IsCyclical.visited st)
      in Hcl, Hnc by set_solver.
    split_and!; [done..|]. intros n Hn. by apply elem_of_nil in Hn.
  - destruct (IsCyclical.dagDFS graph identity compare fuel node st)
      as [[[] st1]|] eqn:Hcall; [done| |done].
    assert (Inv graph identity st1 ∧ IsCyclical.recursionStack st1 = ∅ ∧
            IsCyclical.visited st ⊆ IsCyclical.visited st1 ∧
            identity node ∈ IsCyclical.visited st1) as (Hinv1 & Hstk1 & Hsub & Hnode).
    { destruct (decide (identity node ∈ IsCyclical.visited st)) as [Hvis|Hvis].
      - destruct fuel as [|fuel]; [done|].
        rewrite (dagDFS_finished graph identity compare compare_zero) in Hcall
          by (done || set_solver).
        by simplify_eq.
      - apply (dagDFS_spec graph identity compare compare_zero) in Hcall;
          [|done..|set_solver].
        destruct Hcall as (-> & ? & ? & ?). done. }
    destruct (IH st1 Hinv1 Hstk1 Hrun) as (B & HB & Hcl & Hnc & Hns).
    exists B. split_and!; [set_solver|done..|].
    intros n [->|Hn]%elem_of_cons; [set_solver | by apply Hns].
Qed.

End CycleTestReach.

(** With a comparator that returns zero exactly for nodes of the same
    NodeID, and whatever the edges' endpoints and the NodeIDs of the nodes:
    [dagIsCyclicalDFS] returns [true] only if the edges form a cycle on
    NodeIDs, and [false] only if no listed node reaches one. *)
Theorem dagIsCyclicalDFS_reachable_cycles
    {Node NodeID : Type} `{Countable NodeID} (graph : Graph Node)
    (identity : NodeIdentitySupplier Node NodeID)
    (compare : NodeComparator Node) :
  (∀ a b, compare a b = 0%Z ↔ identity a = identity b) →
  ∃ b,
    IsCyclical.dagIsCyclicalDFS graph identity compare = Some b ∧
    (b = true → ∃ x, tc (idEdge graph identity) x x) ∧
    (b = false →
     ∀ n x, n ∈ nodes graph → rtc (idEdge graph identity) (identity n) x →
            ¬ tc (idEdge graph identity) x x).
Proof.
  intros Hcmp. unfold IsCyclical.dagIsCyclicalDFS.
  destruct (rootLoop_returns graph identity compare (nodes graph)
              (IsCyclical.mkState ∅ ∅)) as [b Hrun].
  exists b. split; [done|]. split; intros ->.
  - by apply (rootLoop_spec graph identity compare Hcmp) in Hrun;
      [|apply Inv_empty|].
  - apply (rootLoop_false_closed graph identity compare Hcmp) in Hrun
      as (B & _ & Hcl & Hnc & Hns); [|apply Inv_empty|done].
    intros n x Hn Hreach. apply Hnc.
    by eapply idClosed_rtc; [|apply Hns|].
Qed.

Lemma dagIsCyclicalDFS_reachable_cycles_witness :
  ∃ b,
    IsCyclical.dagIsCyclicalDFS dangling natIdentity natCompare = Some b ∧
    (b = true → ∃ x, tc (idEdge dangling natIdentity) x x) ∧
    (b = false →
     ∀ n x, n ∈ nodes dangling →
            rtc (idEdge dangling natIdentity) (natIdentity n) x →
            ¬ tc (idEdge dangling natIdentity) x x).
Proof.
  exact (dagIsCyclicalDFS_reachable_cycles dangling natIdentity natCompare
           natCompare_zero).
Defined.

(** ** [dagTopologicalSortDFS] on any graph *)

(** On every graph, cyclic or not, the output of [dagTopologicalSortDFS]
    has pairwise distinct NodeIDs, holds the NodeID of every graph node,
    and holds only graph nodes and [to] nodes of edges. *)
Theorem dagTopologicalSortDFS_identities_once
    {Node NodeID : Type} `{Countable NodeID} (graph : Graph Node)
    (identity : NodeIdentitySupplier Node NodeID)
    (compare : NodeComparator Node) :
  ∃ out,
    TopologicalSort.dagTopologicalSortDFS graph identity compare = Some out ∧
    NoDup (identity <$> out) ∧
    (∀ n, n ∈ nodes graph → identity n ∈ identity <$> out) ∧
    (∀ m, m ∈ out → m ∈ nodes graph ∨ ∃ e, e ∈ edges graph ∧ m = to e).
Proof.
  destruct (dagTopologicalSortDFS_visits graph identity compare)
    as (out & Hrun & Hnd & Hcover & Hfrom & _).
  by exists out.
Qed.

Section NoEdges.
Context {Node NodeID : Type} `{Countable NodeID}.
Variable graph : Graph Node.
Variable identity : NodeIdentitySupplier Node NodeID.
Variable compare : NodeComparator Node.
Hypothesis no_edges : edges graph = [].

Lemma rootLoop_no_edges fuel ns (st : @TopologicalSort.State Node NodeID _ _) :
  NoDup (identity <$> ns) →
  (∀ n, n ∈ ns → identity n ∉ TopologicalSort.visited st) →
  ∃ st',
    TopologicalSort.rootLoop graph identity compare (S fuel) ns st = Some st' ∧
    TopologicalSort.stack st' = TopologicalSort.stack st ++ ns.
Proof.
  revert st. induction ns as [|node ns IH]; intros st Hnd Hvis;
    cbn [TopologicalSort.rootLoop].
  - exists st. by rewrite app_nil_r.
  - rewrite fmap_cons in Hnd. apply NoDup_cons in Hnd as [Hnode Hnd].
    rewrite decide_False by (apply Hvis; by left).
    cbn [TopologicalSort.dagDFS]. rewrite no_edges.
    cbn [TopologicalSort.edgeLoop TopologicalSort.visited
           TopologicalSort.stack].
    edestruct IH as (st' & -> & Hstack); [done| |].
    + cbn [TopologicalSort.visited]. intros n Hn.
      apply not_elem_of_union. split; [|apply Hvis; by right].
      intros Heq%elem_of_singleton. apply Hnode. rewrite <- Heq.
      by apply list_elem_of_fmap_2.
    + exists st'. split; [done|]. rewrite Hstack.
      cbn [TopologicalSort.stack]. by rewrite <- app_assoc.
Qed.

End NoEdges.

(** A graph without edges whose nodes have pairwise distinct NodeIDs is
    sorted into the reverse of its node list. *)
Theorem dagTopologicalSortDFS_no_edges
    {Node NodeID : Type} `{Countable NodeID} (graph : Graph Node)
    (identity : NodeIdentitySupplier Node NodeID)
    (compare : NodeComparator Node) :
  edges graph = [] →
  NoDup (identity <$> nodes graph) →
  TopologicalSort.dagTopologicalSortDFS graph identity compare
  = Some (rev (nodes graph)).
Proof.
  intros Hedges Hnd. unfold TopologicalSort.dagTopologicalSortDFS.
  destruct (rootLoop_no_edges graph identity compare Hedges
              (length (edges graph)) (nodes graph)
              (TopologicalSort.mkState ∅ []) Hnd) as (st' & -> & Hstack).
  - intros n _. cbn. set_solver.
  - by rewrite Hstack.
Qed.

Lemma dagTopologicalSortDFS_no_edges_witness :
  TopologicalSort.dagTopologicalSortDFS noEdges natIdentity natCompare
  = Some [2; 1; 0].
Proof.
  apply (dagTopologicalSortDFS_no_edges noEdges natIdentity natCompare).
  - reflexivity.
  - apply (bool_decide_unpack _). by vm_compute.
Defined.

(** The use the library documents: when [dagIsCyclicalDFS] has returned
    [false] on a graph whose edge endpoints are nodes, with an injective
    identity function and a comparator that agrees with it,
    [dagTopologicalSortDFS] puts every edge's [from] before its [to]. *)
Theorem isCyclical_false_then_sort_orders
    {Node NodeID : Type} `{Countable NodeID} (graph : Graph Node)
    (identity : NodeIdentitySupplier Node NodeID)
    (compare : NodeComparator Node) :
  endpointsInNodes graph →
  (∀ a b, identity a = identity b → a = b) →
  (∀ a b, compare a b = 0%Z ↔ identity a = identity b) →
  IsCyclical.dagIsCyclicalDFS graph identity compare = Some false →
  ∃ out,
    TopologicalSort.dagTopologicalSortDFS graph identity compare = Some out ∧
    ∀ e, e ∈ edges graph → appearsBefore (from e) (to e) out.
Proof.
  intros Hends Hinj Hcmp Hfalse.
  apply (rootLoop_spec graph identity compare Hcmp) in Hfalse;
    [|apply Inv_empty|done].
  destruct (dagTopologicalSortDFS_visits graph identity compare)
    as (out & Hrun & _ & Hcover & _ & Hord).
  exists out. split; [done|]. intros e He.
  apply (topoOrdered_appearsBefore graph identity _ _ Hinj); [|done|].
  - apply Hord; [done|]. intros x Hx.
    assert (∀ a b, tc (idEdge graph identity) a b →
                   ∃ e', e' ∈ edges graph ∧ identity (from e') = a) as Hstart
      by (intros a b [? ? (e' & ? & ? & ?)|? ? ? (e' & ? & ? & ?) _]; eauto).
    destruct (Hstart _ _ Hx) as (e' & He' & <-).
    apply (Hfalse (from e')); [by apply Hends | done].
  - destruct (Hends e He) as [Hfrom _].
    apply Hcover, list_elem_of_fmap in Hfrom as (m & Hm & Hin).
    by apply Hinj in Hm as ->.
Qed.

Lemma isCyclical_false_then_sort_orders_witness :
  ∃ out,
    TopologicalSort.dagTopologicalSortDFS diamond natIdentity natCompare
    = Some out ∧
    ∀ e, e ∈ edges diamond → appearsBefore (from e) (to e) out.
Proof.
  apply (isCyclical_false_then_sort_orders diamond natIdentity natCompare
           diamond_endpoints natIdentity_inj natCompare_zero).
  by vm_compute.
Defined.

(** ** [dagDependencies] and the sort it cuts *)

Section ListFacts.
Context {A : Type}.

Lemma filter_none (P : A → Prop) `{∀ x, Decision (P x)} (l : list A) :
  (∀ x, x ∈ l → ¬ P x) → filter P l = [].
Proof.
  induction l as [|a l IH]; intros Hnone; [done|].
  rewrite filter_cons, decide_False by (apply Hnone; by left).
  apply IH. intros x Hx. apply Hnone. by right.
Qed.

Lemma NoDup_split_unique (l1 l2 k1 k2 : list A) x :
  NoDup (l1 ++ x :: l2) → l1 ++ x :: l2 = k1 ++ x :: k2 →
  l1 = k1 ∧ l2 = k2.
Proof.
  revert k1. induction l1 as [|a l1 IH]; intros [|b k1] Hnd Heq;
    cbn in *; simplify_eq.
  - done.
  - apply NoDup_cons in Hnd as [Hx _]. destruct Hx. set_solver.
  - apply NoDup_cons in Hnd as [Hx _]. destruct Hx. set_solver.
  - apply NoDup_cons in Hnd as [_ Hnd].
    destruct (IH k1 Hnd) as [-> ->]; done.
Qed.

Lemma appearsBefore_trans (a m b : A) (l : list A) :
  NoDup l → appearsBefore a m l → appearsBefore m b l → appearsBefore a b l.
Proof.
  intros Hnd (l1 & l2 & l3 & ->) (k1 & k2 & k3 & Heq).
  replace (l1 ++ a :: l2 ++ m :: l3) with ((l1 ++ a :: l2) ++ m :: l3)
    in Hnd, Heq by (by rewrite <- app_assoc).
  destruct (NoDup_split_unique _ _ _ _ _ Hnd Heq) as [<- ->].
  exists l1, (l2 ++ m :: k2), k3. by rewrite <- !app_assoc.
Qed.

End ListFacts.

Section DepsOfSort.
Context {Node NodeID : Type} `{Countable NodeID}.
Variable graph : Graph Node.
Variable identity : NodeIdentitySupplier Node NodeID.
Variable compare : NodeComparator Node.

Local Abbreviation ids := (fmap (M:=list) identity).
Local Abbreviation sortDFS :=
  (λ g i c, @TopologicalSort.dagTopologicalSortDFS Node NodeID _ _ g i c).
Local Abbreviation depsDFS :=
  (Deps.dagDependencies graph identity compare sortDFS).

(** *** The index holds the last position of a NodeID *)

Lemma indexLoop_latest rest i (m : gmap NodeID nat) k j :
  Deps.indexLoop identity rest i m !! k = Some j →
  ∀ p node, rest !! p = Some node → identity node = k → i + p ≤ j.
Proof.
  revert i m. induction rest as [|node0 rest IH]; intros i m Hidx p node Hp Hid;
    [by rewrite lookup_nil in Hp|].
  cbn [Deps.indexLoop] in Hidx. destruct p as [|p].
  - cbn in Hp. simplify_eq.
    apply indexLoop_Some in Hidx as [Hm|(? & _ & ? & _)]; [|lia].
    rewrite lookup_insert_eq in Hm. simplify_eq. lia.
  - cbn in Hp. specialize (IH _ _ Hidx p node Hp Hid). lia.
Qed.

(** *** The cut of the sort at a target it holds *)

Hypothesis compare_zero :
  ∀ a b, compare a b = 0%Z ↔ identity a = identity b.

Lemma dagDependencies_cut out targetNode :
  TopologicalSort.dagTopologicalSortDFS graph identity compare = Some out →
  identity targetNode ∈ ids out →
  ∃ before t after,
    out = before ++ t :: after ∧ identity t = identity targetNode ∧
    depsDFS targetNode = Some (mkDependencies (rev before) after).
Proof.
  intros Hrun Hin.
  destruct (dagTopologicalSortDFS_visits graph identity compare)
    as (out' & Hrun' & Hnd & Hcover & _). simplify_eq.
  destruct (Deps.indexLoop identity out 0 ∅ !! identity targetNode)
    as [j|] eqn:Hidx;
    [|by apply indexLoop_None in Hidx as [_ ?]].
  destruct (dagDependencies_present graph identity compare sortDFS out Hrun
              _ _ Hidx) as (t & Ht & Hid & Hdeps).
  exists (take j out), t, (drop (S j) out).
  split_and!; [by rewrite take_drop_middle | done |].
  rewrite Hdeps. rewrite !filter_none, !app_nil_r; [done| |].
  all: intros n Hn [Hnot Hsign]; pose proof (Hcover n Hn) as Hc;
    rewrite <- (take_drop_middle _ _ _ Ht), fmap_app, fmap_cons in Hc;
    rewrite fmap_app in Hnot;
    rewrite elem_of_app, elem_of_cons in Hc; rewrite elem_of_app in Hnot;
    assert (identity n = identity targetNode) as Heq
      by (destruct Hc as [?|[?|?]]; [tauto|congruence|tauto]);
    apply compare_zero in Heq; lia.
Qed.

(** *** Ancestors and descendants *)

Hypothesis identity_inj : ∀ a b, identity a = identity b → a = b.
Hypothesis endpoints : endpointsInNodes graph.
Hypothesis no_cycle : acyclic graph.

Lemma tc_appearsBefore out a b :
  TopologicalSort.dagTopologicalSortDFS graph identity compare = Some out →
  tc (nodeEdge graph) a b → appearsBefore a b out.
Proof.
  intros Hrun.
  destruct (dagTopologicalSortDFS_visits graph identity compare)
    as (out' & Hrun' & Hnd & Hcover & _ & Hord). simplify_eq.
  assert (topoOrdered graph identity out) as Hordered.
  { apply Hord; [done|]. intros x Hx.
    apply (tc_idEdge_nodeEdge graph identity _ _ identity_inj) in Hx
      as (c & c' & <- & Heq & Hpath).
    apply identity_inj in Heq as ->. by destruct (no_cycle c). }
  assert (∀ e, e ∈ edges graph → appearsBefore (from e) (to e) out) as Hedge.
  { intros e He.
    apply (topoOrdered_appearsBefore graph identity _ _ identity_inj);
      [done..|].
    destruct (endpoints e He) as [Hfrom _].
    apply Hcover, list_elem_of_fmap in Hfrom as (m & Hm & Hin).
    by apply identity_inj in Hm as ->. }
  induction 1 as [a b (e & He & <- & <-)|a m b (e & He & <- & <-) _ IH].
  - by apply Hedge.
  - eapply appearsBefore_trans; [by eapply NoDup_fmap_1 | by apply Hedge | done].
Qed.

Lemma dagDependencies_relatives targetNode :
  ∃ r, depsDFS targetNode = Some r ∧
       (∀ a, tc (nodeEdge graph) a targetNode → a ∈ dependencies r) ∧
       (∀ b, tc (nodeEdge graph) targetNode b → b ∈ dependents r).
Proof.
  destruct (dagTopologicalSortDFS_visits graph identity compare)
    as (out & Hrun & Hnd & Hcover & _).
  pose proof (NoDup_fmap_1 _ _ Hnd) as Hnd'.
  destruct (decide (identity targetNode ∈ ids out)) as [Hin|Hout].
  - destruct (dagDependencies_cut out targetNode Hrun Hin)
      as (before & t & after & -> & Hid%identity_inj & Hdeps). subst t.
    eexists. split; [done|]. cbn [dependencies dependents]. split.
    + intros a (l1 & l2 & l3 & Heq)%(tc_appearsBefore _ _ _ Hrun).
      replace (l1 ++ a :: l2 ++ targetNode :: l3)
        with ((l1 ++ a :: l2) ++ targetNode :: l3) in Heq
        by (by rewrite <- app_assoc).
      destruct (NoDup_split_unique _ _ _ _ _ Hnd' Heq) as [-> _].
      rewrite elem_of_rev. set_solver.
    + intros b (l1 & l2 & l3 & Heq)%(tc_appearsBefore _ _ _ Hrun).
      destruct (NoDup_split_unique _ _ _ _ _ Hnd' Heq) as [_ ->].
      set_solver.
  - assert (targetNode ∉ nodes graph) as Hnot
      by (intros Hn; by apply Hout, Hcover).
    destruct (Deps.indexLoop identity out 0 ∅ !! identity targetNode)
      as [j|] eqn:Hidx.
    { apply indexLoop_Some in Hidx as [Hm|(t & Ht & _ & Hid)];
        [by rewrite lookup_empty in Hm|].
      destruct Hout. rewrite <- Hid.
      apply list_elem_of_fmap_2. by eapply list_elem_of_lookup_2. }
    rewrite (dagDependencies_absent graph identity compare sortDFS out Hrun
               _ Hidx).
    eexists. split; [done|]. split.
    + intros a Ha. destruct Hnot.
      assert (∃ e, e ∈ edges graph ∧ to e = targetNode) as (e & He & <-).
      { clear -Ha. induction Ha as [? ? (e & ? & ? & ?)|]; eauto. }
      by apply endpoints.
    + intros b Hb. destruct Hnot.
      destruct (tc_nodeEdge_from graph _ _ Hb) as (e & He & <-).
      by apply endpoints.
Qed.

End DepsOfSort.

(** [dagDependencies] returns whenever its supplier does, whatever list
    the supplier returns: the two traversals of the sort stay inside it. *)
Theorem dagDependencies_returns
    {Node NodeID : Type} `{Countable NodeID} (graph : Graph Node)
    (identity : NodeIdentitySupplier Node NodeID)
    (compare : NodeComparator Node)
    (topologicalSortSupplier :
       Graph Node → NodeIdentitySupplier Node NodeID → NodeComparator Node →
       option (list Node))
    (targetNode : Node) :
  is_Some (Deps.dagDependencies graph identity compare
             topologicalSortSupplier targetNode)
  ↔ is_Some (topologicalSortSupplier graph identity compare).
Proof.
  destruct (topologicalSortSupplier graph identity compare)
    as [out|] eqn:Hsort.
  - split; [done|]. intros _.
    destruct (Deps.indexLoop identity out 0 ∅ !! identity targetNode)
      as [j|] eqn:Hidx.
    + destruct (dagDependencies_present graph identity compare _ out Hsort
                  _ _ Hidx) as (t & _ & _ & ->). done.
    + by rewrite (dagDependencies_absent graph identity compare _ out Hsort
                    _ Hidx).
  - unfold Deps.dagDependencies. rewrite Hsort. split; by intros [? ?].
Qed.

(** The index built over the sort maps a NodeID to the last position that
    carries it, and to nothing exactly when no position does. *)
Theorem nodeIndex_last_position
    {Node NodeID : Type} `{Countable NodeID}
    (identity : NodeIdentitySupplier Node NodeID)
    (topologicalSort : list Node) (k : NodeID) :
  match Deps.indexLoop identity topologicalSort 0 ∅ !! k with
  | Some j =>
      (∃ node, topologicalSort !! j = Some node ∧ identity node = k) ∧
      ∀ p node, topologicalSort !! p = Some node → identity node = k → p ≤ j
  | None => k ∉ identity <$> topologicalSort
  end.
Proof.
  destruct (Deps.indexLoop identity topologicalSort 0 ∅ !! k)
    as [j|] eqn:Hidx.
  - split.
    + apply indexLoop_Some in Hidx as [Hm|(node & Hnode & _ & Hid)];
        [by rewrite lookup_empty in Hm|].
      rewrite Nat.sub_0_r in Hnode. eauto.
    + intros p node Hp Hid.
      by apply (indexLoop_latest identity _ _ _ _ _ Hidx p node).
  - by apply indexLoop_None in Hidx as [_ ?].
Qed.

(** For a target whose NodeID is that of a graph node, and a comparator
    that returns zero exactly for nodes of the same NodeID, the two lists
    of [dagDependencies] give back the sort: the dependencies reversed,
    then the node of the target's NodeID, then the dependents. *)
Theorem dagDependencies_recovers_sort
    {Node NodeID : Type} `{Countable NodeID} (graph : Graph Node)
    (identity : NodeIdentitySupplier Node NodeID)
    (compare : NodeComparator Node) (targetNode : Node) :
  (∀ a b, compare a b = 0%Z ↔ identity a = identity b) →
  identity targetNode ∈ identity <$> nodes graph →
  ∃ out r t,
    TopologicalSort.dagTopologicalSortDFS graph identity compare = Some out ∧
    Deps.dagDependencies graph identity compare
      (λ g i c, TopologicalSort.dagTopologicalSortDFS g i c) targetNode
    = Some r ∧
    identity t = identity targetNode ∧
    out = rev (dependencies r) ++ t :: dependents r.
Proof.
  intros Hcmp Hin.
  destruct (dagTopologicalSortDFS_visits graph identity compare)
    as (out & Hrun & _ & Hcover & _).
  destruct (dagDependencies_cut graph identity compare Hcmp out targetNode
              Hrun) as (before & t & after & -> & Hid & Hdeps).
  - apply list_elem_of_fmap in Hin as (n & -> & Hn). by apply Hcover.
  - eexists _, _, t. split_and!; [done..|].
    cbn [dependencies dependents]. by rewrite rev_involutive.
Qed.

Lemma dagDependencies_recovers_sort_witness :
  ∃ out r t,
    TopologicalSort.dagTopologicalSortDFS diamond natIdentity natCompare
    = Some out ∧
    Deps.dagDependencies diamond natIdentity natCompare
      (λ g i c, TopologicalSort.dagTopologicalSortDFS g i c) 1
    = Some r ∧
    natIdentity t = natIdentity 1 ∧
    out = rev (dependencies r) ++ t :: dependents r.
Proof.
  apply (dagDependencies_recovers_sort diamond natIdentity natCompare 1
           natCompare_zero).
  apply (bool_decide_unpack _). by vm_compute.
Defined.

(** On an acyclic graph whose edge endpoints are nodes, with an injective
    identity function and a comparator that agrees with it, every node
    with a path to the target is among the dependencies that
    [dagDependencies] returns, and every node the target has a path to is
    among the dependents. *)
Theorem dagDependencies_lists_relatives
    {Node NodeID : Type} `{Countable NodeID} (graph : Graph Node)
    (identity : NodeIdentitySupplier Node NodeID)
    (compare : NodeComparator Node) (targetNode : Node) :
  acyclic graph →
  endpointsInNodes graph →
  (∀ a b, identity a = identity b → a = b) →
  (∀ a b, compare a b = 0%Z ↔ identity a = identity b) →
  ∃ r,
    Deps.dagDependencies graph identity compare
      (λ g i c, TopologicalSort.dagTopologicalSortDFS g i c) targetNode
    = Some r ∧
    (∀ a, tc (nodeEdge graph) a targetNode → a ∈ dependencies r) ∧
    (∀ b, tc (nodeEdge graph) targetNode b → b ∈ dependents r).
Proof.
  intros Hacyclic Hends Hinj Hcmp.
  exact (dagDependencies_relatives graph identity compare Hcmp Hinj Hends
           Hacyclic targetNode).
Qed.

Lemma dagDependencies_lists_relatives_witness :
  ∃ r,
    Deps.dagDependencies diamond natIdentity natCompare
      (λ g i c, TopologicalSort.dagTopologicalSortDFS g i c) 1
    = Some r ∧
    (∀ a, tc (nodeEdge diamond) a 1 → a ∈ dependencies r) ∧
    (∀ b, tc (nodeEdge diamond) 1 b → b ∈ dependents r).
Proof.
  exact (dagDependencies_lists_relatives diamond natIdentity natCompare 1
           diamond_acyclic diamond_endpoints natIdentity_inj natCompare_zero).
Defined.

(** ** [dagCyclesDFS] and acyclic graphs *)

(** On a graph whose edge endpoints are nodes, with an injective identity
    function and a comparator that returns zero exactly for nodes of the
    same NodeID, [dagCyclesDFS] returns no record exactly when the graph is
    acyclic. *)
Theorem dagCyclesDFS_empty_iff_acyclic
    {Node NodeID : Type} `{Countable NodeID} (graph : Graph Node)
    (identity : NodeIdentitySupplier Node NodeID)
    (compare : NodeComparator Node) :
  endpointsInNodes graph →
  (∀ a b, identity a = identity b → a = b) →
  (∀ a b, compare a b = 0%Z ↔ identity a = identity b) →
  ∃ found,
    Cycles.dagCyclesDFS graph identity compare = Some found ∧
    (found = [] ↔ acyclic graph).
Proof.
  intros Hends Hinj Hcmp.
  destruct (dagCyclesDFS_agrees graph identity compare Hcmp)
    as (b & found & Hb & Hrun & Hiff).
  exists found. split; [done|].
  apply (rootLoop_spec graph identity compare Hcmp) in Hb;
    [|apply Inv_empty|done].
  destruct b.
  - assert (found ≠ []) as Hne by (by apply Hiff).
    split; [done|]. intros Hacyclic. destruct Hb as [x Hx].
    apply (tc_idEdge_nodeEdge graph identity _ _ Hinj) in Hx
      as (a & a' & <- & Heq & Hpath).
    apply Hinj in Heq as ->. by destruct (Hacyclic a).
  - assert (found = []) as ->.
    { destruct found as [|r found]; [done|].
      assert (false = true) by (by apply Hiff). done. }
    split; [|done]. intros _ n Hn.
    destruct (tc_nodeEdge_from graph _ _ Hn) as (e & He & <-).
    apply (Hb (from e)); [by apply Hends|]. by apply tc_nodeEdge_idEdge.
Qed.

Lemma dagCyclesDFS_empty_iff_acyclic_witness :
  ∃ found,
    Cycles.dagCyclesDFS diamond natIdentity natCompare = Some found ∧
    (found = [] ↔ acyclic diamond).
Proof.
  exact (dagCyclesDFS_empty_iff_acyclic diamond natIdentity natCompare
           diamond_endpoints natIdentity_inj natCompare_zero).
Defined.
